(** * Lorenz attractor watch-face demo: a shallow embedding of
      [tools/chaos_demo.py] and the properties of its integrator,
      trajectory buffer, viewport projector and rasterizer.

    Numbers.  The program computes on IEEE doubles (Python floats and
    numpy [float64] arrays).  This development reads every such number as
    a real number: [+], [-], [*], [/] are the exact field operations of
    [R], [math.cos], [math.sin] and [math.pi] are [cos], [sin] and [PI].
    Rounding, overflow and NaN are therefore outside the model.  Pixel
    indices, lengths and the capacity are integers ([Z], [nat]).  The
    module [Binary64] repeats the projector and the angle update on
    binary64 floats, to evaluate the concrete inputs of this file as the
    program computes them.

    Objects.  The value model below keeps a numpy array as the triple of
    its components.  The module [Store] keeps arrays as cells of an object
    store and the simulator's attributes as references into it, which is
    what the aliasing property of the trajectory needs; [Store.view] maps
    it back to the value model. *)

From Stdlib Require Import Reals Lra Lia List ZArith Bool Floats.
Import ListNotations.
Open Scope R_scope.

(* ================================================================= *)
(** ** Python values *)

(** A numpy array of shape (3,). *)
Definition vec : Type := (R * R * R)%type.

(** [a + b] on arrays. *)
Definition vadd (a b : vec) : vec :=
  let '(a1, a2, a3) := a in
  let '(b1, b2, b3) := b in
  (a1 + b1, a2 + b2, a3 + b3).

(** [a * s], array times scalar. *)
Definition vmul (a : vec) (s : R) : vec :=
  let '(a1, a2, a3) := a in (a1 * s, a2 * s, a3 * s).

(** [s * a], scalar times array. *)
Definition smul (s : R) (a : vec) : vec :=
  let '(a1, a2, a3) := a in (s * a1, s * a2, s * a3).

(** [a / s], array divided by scalar. *)
Definition vdiv (a : vec) (s : R) : vec :=
  let '(a1, a2, a3) := a in (a1 / s, a2 / s, a3 / s).

(** The exceptions the modelled code can raise. *)
Inductive exn : Type :=
| IndexError.

Inductive result (A : Type) : Type :=
| Ok (a : A)
| Raise (e : exn).
Arguments Ok {A} a.
Arguments Raise {A} e.

Definition bind {A B : Type} (m : result A) (k : A -> result B) : result B :=
  match m with
  | Ok a => k a
  | Raise e => Raise e
  end.

Notation "x <- m ;; k" := (bind m (fun x => k))
  (at level 61, m at next level, right associativity).

(** [for _ in range(n): body] on a state that [body] may fail to update. *)
Fixpoint for_range {S : Type} (n : nat) (body : S -> result S) (s : S)
  : result S :=
  match n with
  | O => Ok s
  | Datatypes.S n' => s' <- body s ;; for_range n' body s'
  end.

(** [range(a, b)]. *)
Definition py_range (a b : Z) : list Z :=
  map (fun k => (a + Z.of_nat k)%Z) (seq 0 (Z.to_nat (b - a))).

(** [l.pop(0)]: the first element and the rest; [IndexError] on []. *)
Definition pop0 {A : Type} (l : list A) : result (A * list A) :=
  match l with
  | [] => Raise IndexError
  | x :: t => Ok (x, t)
  end.

(** The builtin [min(a, b)]: [b] when [b < a], otherwise [a]. *)
Definition py_min (a b : R) : R := if Rlt_dec b a then b else a.

(** [arr.min()] and [arr.max()] of the array [x :: t]. *)
Definition amin (x : R) (t : list R) : R := fold_left Rmin t x.
Definition amax (x : R) (t : list R) : R := fold_left Rmax t x.

(** [np.clip(x, lo, hi)] on one element: [minimum(maximum(x, lo), hi)]. *)
Definition clip (x lo hi : R) : R := Rmin (Rmax x lo) hi.

(** [int(x)] on a float: truncation towards zero. *)
Definition int (x : R) : Z :=
  if Rle_dec 0 x then Int_part x else (- Int_part (- x))%Z.

(** The chained comparison [0 <= v < 200] on a float. *)
Definition in_span (v : R) : bool :=
  (if Rle_dec 0 v then true else false) && (if Rlt_dec v 200 then true else false).

(* ================================================================= *)
(** ** class LorenzSimulator *)

(** The attributes of an instance.  [A] is how an array attribute is held:
    its value ([vec]) in the value model, a reference in [Store]. *)
Record Simulator (A : Type) : Type := mkSim {
  sigma : R;
  rho : R;
  beta : R;
  dt : R;
  pos : A;
  max_points : Z;
  trajectory : list A;
  rotation_angle : R;
  display_width : Z;
  display_height : Z
}.
Arguments mkSim {A}.
Arguments sigma {A} _.
Arguments rho {A} _.
Arguments beta {A} _.
Arguments dt {A} _.
Arguments pos {A} _.
Arguments max_points {A} _.
Arguments trajectory {A} _.
Arguments rotation_angle {A} _.
Arguments display_width {A} _.
Arguments display_height {A} _.

Definition LorenzSimulator : Type := Simulator vec.

Definition set_pos {A : Type} (s : Simulator A) (p : A) : Simulator A :=
  mkSim (sigma s) (rho s) (beta s) (dt s) p (max_points s) (trajectory s)
        (rotation_angle s) (display_width s) (display_height s).

Definition set_trajectory {A : Type} (s : Simulator A) (t : list A) : Simulator A :=
  mkSim (sigma s) (rho s) (beta s) (dt s) (pos s) (max_points s) t
        (rotation_angle s) (display_width s) (display_height s).

Definition set_rotation_angle {A : Type} (s : Simulator A) (a : R) : Simulator A :=
  mkSim (sigma s) (rho s) (beta s) (dt s) (pos s) (max_points s) (trajectory s)
        a (display_width s) (display_height s).

(** [__init__]: no argument, every attribute a literal. *)
Definition init : LorenzSimulator :=
  {| sigma := 10;
     rho := 28;
     beta := 8 / 3;
     dt := 0.05;
     pos := (1, 1, 1);
     max_points := 300;
     trajectory := [];
     rotation_angle := 0;
     display_width := 200;
     display_height := 200 |}.

Definition lorenz_derivative {A : Type} (s : Simulator A) (p : vec) : vec :=
  let '(x, y, z) := p in
  let dx := sigma s * (y - x) in
  let dy := x * (rho s - z) - y in
  let dz := x * y - beta s * z in
  (dx, dy, dz).

Definition update_lorenz (s : LorenzSimulator) : LorenzSimulator :=
  let k1 := lorenz_derivative s (pos s) in
  let k2 := lorenz_derivative s (vadd (pos s) (vdiv (vmul k1 (dt s)) 2)) in
  let k3 := lorenz_derivative s (vadd (pos s) (vdiv (vmul k2 (dt s)) 2)) in
  let k4 := lorenz_derivative s (vadd (pos s) (vmul k3 (dt s))) in
  set_pos s
    (vadd (pos s)
       (vdiv (vmul (vadd (vadd (vadd k1 (smul 2 k2)) (smul 2 k3)) k4) (dt s)) 6)).

Definition project_3d_to_2d (s : LorenzSimulator) (point_3d : vec) : R * R :=
  let '(x, y, z) := point_3d in
  let cos_rot := cos (rotation_angle s) in
  let sin_rot := sin (rotation_angle s) in
  let x_rot := x * cos_rot - z * sin_rot in
  let y_rot := y in
  (x_rot, y_rot).

Definition add_trajectory_point (s : LorenzSimulator) : result LorenzSimulator :=
  if (Z.of_nat (length (trajectory s)) <? max_points s)%Z
  then Ok (set_trajectory s (trajectory s ++ [pos s]))
  else
    r <- pop0 (trajectory s) ;;
    Ok (set_trajectory s (snd r ++ [pos s])).

Definition get_screen_coordinates (s : LorenzSimulator) : list R * list R :=
  match trajectory s with
  | [] => ([], [])
  | _ :: _ =>
    let screen_points := map (project_3d_to_2d s) (trajectory s) in
    match screen_points with
    | [] => ([], [])
    | q :: qs =>
      let min_x := amin (fst q) (map fst qs) in
      let max_x := amax (fst q) (map fst qs) in
      let min_y := amin (snd q) (map snd qs) in
      let max_y := amax (snd q) (map snd qs) in
      let range_x := max_x - min_x in
      let range_y := max_y - min_y in
      let range_x := if Rlt_dec range_x 0.1 then 0.1 else range_x in
      let range_y := if Rlt_dec range_y 0.1 then 0.1 else range_y in
      let scale_x := 80 / range_x in
      let scale_y := 80 / range_y in
      let scale := py_min scale_x scale_y in
      let center_x := (min_x + max_x) / 2 in
      let center_y := (min_y + max_y) / 2 in
      let screen_x :=
        map (fun p => (fst p - center_x) * scale + 100) screen_points in
      let screen_y :=
        map (fun p => (snd p - center_y) * scale + 100) screen_points in
      let screen_x := map (fun v => clip v 5 195) screen_x in
      let screen_y := map (fun v => clip v 5 195) screen_y in
      (screen_x, screen_y)
    end
  end.

(** The last two statements of [simulate_frame]. *)
Definition rotate_view {A : Type} (s : Simulator A) : Simulator A :=
  let a := rotation_angle s + 0.2 in
  set_rotation_angle s (if Rgt_dec a (2 * PI) then a - 2 * PI else a).

Definition simulate_frame (s : LorenzSimulator) : result LorenzSimulator :=
  s' <- for_range 50 (fun s0 => add_trajectory_point (update_lorenz s0)) s ;;
  Ok (rotate_view s').

(* ================================================================= *)
(** ** create_watchy_frame_pil: the trajectory layer *)

(** A 200x200 image of mode 'L', read with [getpixel (x, y)]. *)
Definition image : Type := Z -> Z -> Z.

(** [Image.new('L', (200, 200), fill)]. *)
Definition Image_new (fill : Z) : image := fun _ _ => fill.

(** [draw.point((x, y), fill)]; PIL ignores a point outside the image. *)
Definition draw_point (img : image) (x y : Z) (fill : Z) : image :=
  fun i j =>
    if ((0 <=? x) && (x <? 200) && (0 <=? y) && (y <? 200)
        && (i =? x) && (j =? y))%Z
    then fill else img i j.

(** The guard of the 3x3 loop, on floats: [0 <= x + dx < 200 and ...]. *)
Definition guard3 (x y : R) (dx dy : Z) : bool :=
  in_span (x + IZR dx) && in_span (y + IZR dy).

(** The guard of the 5x5 loop, on integers. *)
Definition guard5 (current_x current_y : Z) (dx dy : Z) : bool :=
  ((0 <=? current_x + dx) && (current_x + dx <? 200)
   && (0 <=? current_y + dy) && (current_y + dy <? 200))%Z.

(** The body of [for x, y in zip(screen_x, screen_y)]. *)
Definition stroke3 (img : image) (xy : R * R) : image :=
  let '(x, y) := xy in
  fold_left (fun img dx =>
    fold_left (fun img dy =>
      if guard3 x y dx dy
      then draw_point img (int (x + IZR dx)) (int (y + IZR dy)) 0
      else img)
      (py_range (-1) 2) img)
    (py_range (-1) 2) img.

(** The body of [if len(screen_x) > 0]. *)
Definition stroke5 (img : image) (current_x current_y : Z) : image :=
  fold_left (fun img dx =>
    fold_left (fun img dy =>
      if guard5 current_x current_y dx dy
      then draw_point img (current_x + dx) (current_y + dy) 0
      else img)
      (py_range (-2) 3) img)
    (py_range (-2) 3) img.

(** Lines 148-154: every trajectory point as a 3x3 square. *)
Definition paint_points (img : image) (screen_x screen_y : list R) : image :=
  fold_left stroke3 (combine screen_x screen_y) img.

(** Lines 145-163: blank image, trajectory strokes, current position. *)
Definition paint_trajectory (screen_x screen_y : list R) : image :=
  let img := Image_new 255 in
  let img := paint_points img screen_x screen_y in
  if (0 <? Z.of_nat (length screen_x))%Z
  then
    let current_x := int (last screen_x 0) in
    let current_y := int (last screen_y 0) in
    stroke5 img current_x current_y
  else img.

(** [create_watchy_frame_pil] up to line 163.  The time, date, battery and
    step glyphs drawn afterwards depend on the font found at run time and
    are not part of the trajectory layer. *)
Definition create_watchy_frame_pil (simulator : LorenzSimulator) (frame_num : Z)
  : result (LorenzSimulator * image) :=
  s' <- simulate_frame simulator ;;
  let '(screen_x, screen_y) := get_screen_coordinates s' in
  Ok (s', paint_trajectory screen_x screen_y).

(* ================================================================= *)
(** ** The same methods over an object store *)

Module Store.

(** Arrays live in cells; a reference is the index of its cell.  Cells are
    never freed, and a new array takes the next index. *)
Definition ref : Type := nat.
Definition store : Type := list vec.

Definition load (h : store) (r : ref) : vec := nth r h (0, 0, 0).

Fixpoint write (h : store) (r : ref) (v : vec) : store :=
  match h, r with
  | [], _ => []
  | _ :: t, O => v :: t
  | x :: t, Datatypes.S r' => x :: write t r' v
  end.

(** A new array holding [v]. *)
Definition alloc (h : store) (v : vec) : store * ref := (h ++ [v], length h).

Record state : Type := mkState {
  heap : store;
  self : Simulator ref
}.

(** [__init__]: [np.array([1.0, 1.0, 1.0])] is the first array allocated. *)
Definition init : state :=
  let '(h, r) := alloc [] (1, 1, 1) in
  mkState h (mkSim 10 28 (8 / 3) 0.05 r 300 [] 0 200 200).

(** [self.pos += ...] writes into the array [self.pos] refers to; the
    operands on the right are new temporaries. *)
Definition update_lorenz (st : state) : state :=
  let s := self st in
  let p := load (heap st) (pos s) in
  let k1 := lorenz_derivative s p in
  let k2 := lorenz_derivative s (vadd p (vdiv (vmul k1 (dt s)) 2)) in
  let k3 := lorenz_derivative s (vadd p (vdiv (vmul k2 (dt s)) 2)) in
  let k4 := lorenz_derivative s (vadd p (vmul k3 (dt s))) in
  mkState
    (write (heap st) (pos s)
       (vadd p
          (vdiv (vmul (vadd (vadd (vadd k1 (smul 2 k2)) (smul 2 k3)) k4) (dt s)) 6)))
    s.

(** [self.pos.copy()] allocates; the list holds the new reference. *)
Definition add_trajectory_point (st : state) : result state :=
  let s := self st in
  if (Z.of_nat (length (trajectory s)) <? max_points s)%Z
  then
    let '(h, r) := alloc (heap st) (load (heap st) (pos s)) in
    Ok (mkState h (set_trajectory s (trajectory s ++ [r])))
  else
    q <- pop0 (trajectory s) ;;
    let '(h, r) := alloc (heap st) (load (heap st) (pos s)) in
    Ok (mkState h (set_trajectory s (snd q ++ [r]))).

Definition simulate_frame (st : state) : result state :=
  st' <- for_range 50 (fun s0 => add_trajectory_point (update_lorenz s0)) st ;;
  Ok (mkState (heap st') (rotate_view (self st'))).

(** The value model read off the store. *)
Definition view (st : state) : LorenzSimulator :=
  let s := self st in
  mkSim (sigma s) (rho s) (beta s) (dt s) (load (heap st) (pos s))
        (max_points s) (map (load (heap st)) (trajectory s))
        (rotation_angle s) (display_width s) (display_height s).

(** The two calls a run interleaves. *)
Inductive call : Type :=
| CallUpdate
| CallAdd.

Definition exec (c : call) (st : state) : result state :=
  match c with
  | CallUpdate => Ok (update_lorenz st)
  | CallAdd => add_trajectory_point st
  end.

Fixpoint run (cs : list call) (st : state) : result state :=
  match cs with
  | [] => Ok st
  | c :: cs' => st' <- exec c st ;; run cs' st'
  end.

(** References are allocated, and no trajectory entry is [self.pos]. *)
Definition wf (st : state) : Prop :=
  (pos (self st) < length (heap st))%nat
  /\ Forall (fun r => (r < length (heap st))%nat /\ r <> pos (self st))
            (trajectory (self st)).

End Store.

(* ================================================================= *)
(** ** Specification-side definitions *)

(** The Lorenz vector field with the classic constants. *)
Definition lorenz_field (p : vec) : vec :=
  let '(x, y, z) := p in
  (10 * (y - x), x * (28 - z) - y, x * y - 8 / 3 * z).

(** One classical Runge-Kutta step of size 0.05, stage by stage. *)
Definition rk4_spec (p : vec) : vec :=
  let h := 0.05 in
  let k1 := lorenz_field p in
  let k2 := lorenz_field (vadd p (smul (h / 2) k1)) in
  let k3 := lorenz_field (vadd p (smul (h / 2) k2)) in
  let k4 := lorenz_field (vadd p (smul h k3)) in
  vadd p (smul (h / 6) (vadd (vadd (vadd k1 (smul 2 k2)) (smul 2 k3)) k4)).

(** The buffer after pushing [ps] in order: the last [cap] of them. *)
Definition window {A : Type} (cap : nat) (ps : list A) : list A :=
  skipn (length ps - cap) ps.

(** [push] of the specification: the state is set to [p], then recorded. *)
Definition push (p : vec) (s : LorenzSimulator) : result LorenzSimulator :=
  add_trajectory_point (set_pos s p).

Fixpoint pushes (ps : list vec) (s : LorenzSimulator) : result LorenzSimulator :=
  match ps with
  | [] => Ok s
  | p :: ps' => s' <- push p s ;; pushes ps' s'
  end.

(** The positions after each of [n] integration steps from [s]. *)
Fixpoint state_sequence (n : nat) (s : LorenzSimulator) : list vec :=
  match n with
  | O => []
  | Datatypes.S n' =>
    let s' := update_lorenz s in
    pos s' :: state_sequence n' s'
  end.

(** *** Projector: the fit, and inputs used below *)

(** The rotated points, their bounding box, and the fit it determines. *)
Definition rotated (s : LorenzSimulator) : list (R * R) :=
  map (project_3d_to_2d s) (trajectory s).

Definition lowest (l : list R) : R :=
  match l with [] => 0 | x :: t => amin x t end.

Definition highest (l : list R) : R :=
  match l with [] => 0 | x :: t => amax x t end.

Definition span (l : list R) : R := highest l - lowest l.

Definition middle (l : list R) : R := (lowest l + highest l) / 2.

(** The range after the degenerate-range guard. *)
Definition guarded (r : R) : R := if Rlt_dec r 0.1 then 0.1 else r.

Definition fit_scale (xs ys : list R) : R :=
  py_min (80 / guarded (span xs)) (80 / guarded (span ys)).

(** Centre, scale, move to (100, 100), clamp. *)
Definition fit (l : list R) (scale : R) : list R :=
  map (fun v => clip ((v - middle l) * scale + 100) 5 195) l.

Definition within_margin (v : R) : Prop := 5 <= v <= 195.


(** Two points 1/16 apart on both axes, seen at angle 0. *)
Definition close_pair : LorenzSimulator :=
  set_trajectory init [(0, 0, 0); (0.0625, 0.0625, 0)].


(** *** Rasterizer: blocks of pixels *)

(** The filled square of half-width [h] centred on ([cx], [cy]). *)
Definition in_block (cx cy h : Z) (i j : Z) : bool :=
  ((cx - h <=? i) && (i <=? cx + h) && (cy - h <=? j) && (j <=? cy + h))%Z.

(** The pixels a stroke of half-width [h] around ([cx], [cy]) addresses. *)
Definition targets (cx cy h : Z) : list (Z * Z) :=
  flat_map (fun dx => map (fun dy => (cx + dx, cy + dy)%Z) (py_range (- h) (h + 1)))
           (py_range (- h) (h + 1)).

Definition draw_points (img : image) (ts : list (Z * Z)) : image :=
  fold_left (fun im t => draw_point im (fst t) (snd t) 0) ts img.

(** *** Polynomials with integer coefficients *)

(** Polynomials with integer coefficients, constant coefficient first. *)
Definition poly : Type := list Z.

Fixpoint peval (p : poly) (x : R) : R :=
  match p with
  | [] => 0
  | c :: t => IZR c + x * peval t x
  end.

Fixpoint pderiv_from (i : nat) (p : poly) : poly :=
  match p with
  | [] => []
  | c :: t => (Z.of_nat i * c)%Z :: pderiv_from (S i) t
  end.

Definition pderiv (p : poly) : poly :=
  match p with
  | [] => []
  | _ :: t => pderiv_from 1 t
  end.

Fixpoint padd (p q : poly) : poly :=
  match p, q with
  | [], _ => q
  | _, [] => p
  | a :: p', b :: q' => (a + b)%Z :: padd p' q'
  end.

Definition pscale (c : Z) (p : poly) : poly := map (Z.mul c) p.

Fixpoint pmul (p q : poly) : poly :=
  match p with
  | [] => []
  | c :: p' => padd (pscale c q) (0%Z :: pmul p' q)
  end.

Fixpoint ppow (p : poly) (n : nat) : poly :=
  match n with
  | O => [1%Z]
  | S n' => pmul p (ppow p n')
  end.

(** x^n (a - b x)^n. *)
Definition niven (a b : Z) (n : nat) : poly :=
  repeat 0%Z n ++ ppow [a; (- b)%Z] n.

(** The k-th derivative. *)
Definition pderivs (k : nat) (p : poly) : poly := Nat.iter k pderiv p.

Definition niven_term (p : poly) (j : nat) (x : R) : R :=
  (-1) ^ j * (peval (pderivs (2 * j + 1) p) x * sin x
              - peval (pderivs (2 * j) p) x * cos x).

Definition niven_sum (p : poly) (m : nat) (x : R) : R :=
  sum_f_R0 (fun j => niven_term p j x) m.

(** *** Driver: runs of frames *)

(** [n] calls of [simulate_frame]. *)
Definition frames (n : nat) (s : LorenzSimulator) : result LorenzSimulator :=
  for_range n simulate_frame s.

(** Add 0.2, then take one turn off if the sum exceeds 2 pi. *)
Definition wrap_angle (a : R) : R :=
  if Rgt_dec (a + 0.2) (2 * PI) then a + 0.2 - 2 * PI else a + 0.2.

(** What a method leaves alone apart from position and trajectory. *)
Definition same_settings (s s' : LorenzSimulator) : Prop :=
  sigma s' = sigma s /\ rho s' = rho s /\ beta s' = beta s /\ dt s' = dt s
  /\ max_points s' = max_points s /\ rotation_angle s' = rotation_angle s
  /\ display_width s' = display_width s /\ display_height s' = display_height s.

(** *** Configurations *)

(** The preconditions on capacity and viewport.  (A state component is a
    real number here, hence finite.) *)
Definition valid_configuration (s : LorenzSimulator) : Prop :=
  (0 < max_points s)%Z /\ (0 < display_width s)%Z /\ (0 < display_height s)%Z.


(** An instance whose capacity was set to 0 after [__init__]. *)
Definition no_capacity : LorenzSimulator :=
  mkSim 10 28 (8 / 3) 0.05 (1, 1, 1) 0 [] 0 200 200.

(** *** A short run over the store *)

(** A short run: one step, a push, then a step and another push. *)
Definition demo_recorded : Store.state :=
  Store.update_lorenz Store.init.

Definition demo_pushed : Store.state :=
  match Store.add_trajectory_point demo_recorded with
  | Ok st => st
  | Raise _ => demo_recorded
  end.

Definition demo_later : Store.state :=
  match Store.run [Store.CallUpdate; Store.CallAdd] demo_pushed with
  | Ok st => st
  | Raise _ => demo_pushed
  end.

(* ================================================================= *)
(** ** The projector and the angle update on binary64 *)

Module Binary64.
#[local] Set Warnings "-inexact-float".

Definition vec : Type := (float * float * float)%type.

Definition smul (s : float) (a : vec) : vec :=
  let '(a1, a2, a3) := a in (s * a1, s * a2, s * a3)%float.

(** [min] and [max] of two floats that are not NaN. *)
Definition fmin (a b : float) : float := if (b <? a)%float then b else a.
Definition fmax (a b : float) : float := if (a <? b)%float then b else a.
Definition amin (x : float) (t : list float) : float := fold_left fmin t x.
Definition amax (x : float) (t : list float) : float := fold_left fmax t x.
Definition clip (x lo hi : float) : float := fmin (fmax x lo) hi.

(** [cos_rot] and [sin_rot] are what [math.cos] and [math.sin] returned. *)
Definition project_3d_to_2d (cos_rot sin_rot : float) (point_3d : vec)
  : float * float :=
  let '(x, y, z) := point_3d in
  let x_rot := (x * cos_rot - z * sin_rot)%float in
  let y_rot := y in
  (x_rot, y_rot).

Definition get_screen_coordinates (cos_rot sin_rot : float) (trajectory : list vec)
  : list float * list float :=
  match map (project_3d_to_2d cos_rot sin_rot) trajectory with
  | [] => ([], [])
  | q :: qs =>
    let screen_points := q :: qs in
    let min_x := amin (fst q) (map fst qs) in
    let max_x := amax (fst q) (map fst qs) in
    let min_y := amin (snd q) (map snd qs) in
    let max_y := amax (snd q) (map snd qs) in
    let range_x := (max_x - min_x)%float in
    let range_y := (max_y - min_y)%float in
    let range_x := if (range_x <? 0.1)%float then 0.1%float else range_x in
    let range_y := if (range_y <? 0.1)%float then 0.1%float else range_y in
    let scale_x := (80 / range_x)%float in
    let scale_y := (80 / range_y)%float in
    let scale := fmin scale_x scale_y in
    let center_x := ((min_x + max_x) / 2)%float in
    let center_y := ((min_y + max_y) / 2)%float in
    let screen_x :=
      map (fun p => ((fst p - center_x) * scale + 100)%float) screen_points in
    let screen_y :=
      map (fun p => ((snd p - center_y) * scale + 100)%float) screen_points in
    (map (fun v => clip v 5 195) screen_x, map (fun v => clip v 5 195) screen_y)
  end.

(** [math.pi]. *)
Definition pi : float := 0x1.921fb54442d18p+1%float.

(** The last two statements of [simulate_frame]. *)
Definition rotate_view (rotation_angle : float) : float :=
  let a := (rotation_angle + 0.2)%float in
  if (2 * pi <? a)%float then (a - 2 * pi)%float else a.

Definition close_pair : list vec :=
  [(0, 0, 0); (0.0625, 0.0625, 0)]%float.

End Binary64.

(* ================================================================= *)
(** ** The integrator *)

Lemma update_lorenz_frame (s : LorenzSimulator) :
  update_lorenz s = set_pos s (pos (update_lorenz s)).
Proof. reflexivity. Qed.

(** C1.  On the constants of [__init__] (sigma 10, rho 28, beta 8/3,
    dt 0.05), [update_lorenz] replaces the position [p] by the classical
    Runge-Kutta step [rk4_spec p] of the Lorenz field: stages k1 at [p],
    k2 and k3 at [p] advanced by half of dt times the previous stage, k4 at
    [p] advanced by dt times k3, combined as p + (k1+2k2+2k3+k4)*dt/6; no
    other attribute changes. *)
Theorem update_lorenz_is_rk4 (p : vec) (traj : list vec) (angle : R) :
  update_lorenz (mkSim 10 28 (8 / 3) 0.05 p 300 traj angle 200 200)
  = mkSim 10 28 (8 / 3) 0.05 (rk4_spec p) 300 traj angle 200 200.
Proof.
  destruct p as [[x y] z].
  unfold update_lorenz, set_pos, rk4_spec, lorenz_derivative, lorenz_field,
    vadd, vmul, vdiv, smul; cbn [sigma rho beta dt pos max_points trajectory
    rotation_angle display_width display_height].
  f_equal. f_equal; [f_equal|]; field.
Qed.

Example lorenz_derivative_init :
  lorenz_derivative init (pos init) = (0, 26, - (5 / 3)).
Proof.
  unfold lorenz_derivative, init; cbn [sigma rho beta pos].
  f_equal; [f_equal|]; lra.
Qed.

(** The new position is a function of the old one and the four constants. *)
Lemma update_lorenz_pos_ext (s1 s2 : LorenzSimulator) :
  pos s1 = pos s2 -> sigma s1 = sigma s2 -> rho s1 = rho s2 ->
  beta s1 = beta s2 -> dt s1 = dt s2 ->
  pos (update_lorenz s1) = pos (update_lorenz s2).
Proof.
  intros Hp Hs Hr Hb Hd.
  unfold update_lorenz, set_pos, lorenz_derivative; cbn [pos].
  rewrite Hp, Hs, Hr, Hb, Hd. reflexivity.
Qed.

Lemma update_lorenz_constants (s : LorenzSimulator) :
  sigma (update_lorenz s) = sigma s /\ rho (update_lorenz s) = rho s
  /\ beta (update_lorenz s) = beta s /\ dt (update_lorenz s) = dt s.
Proof. repeat split. Qed.

(** C8.  Two runs of [N] integration steps that start from the same
    position with the same sigma, rho, beta and dt go through the same
    sequence of positions, whatever their trajectories, rotation angles and
    other attributes are: the step reads nothing else. *)
Theorem state_sequence_deterministic (N : nat) (s1 s2 : LorenzSimulator) :
  pos s1 = pos s2 -> sigma s1 = sigma s2 -> rho s1 = rho s2 ->
  beta s1 = beta s2 -> dt s1 = dt s2 ->
  state_sequence N s1 = state_sequence N s2.
Proof.
  revert s1 s2.
  induction N as [|N IH]; intros s1 s2 Hp Hs Hr Hb Hd; [reflexivity|].
  cbn [state_sequence].
  assert (Hq : pos (update_lorenz s1) = pos (update_lorenz s2))
    by (apply update_lorenz_pos_ext; assumption).
  rewrite Hq. f_equal.
  apply IH; try assumption; cbn; assumption.
Qed.

Lemma state_sequence_deterministic_witness :
  state_sequence 3 init
  = state_sequence 3 (mkSim 10 28 (8 / 3) 0.05 (1, 1, 1) 7 [(0, 0, 0)] 2 10 10).
Proof.
  apply (state_sequence_deterministic 3 init
           (mkSim 10 28 (8 / 3) 0.05 (1, 1, 1) 7 [(0, 0, 0)] 2 10 10));
    reflexivity.
Defined.

(* ================================================================= *)
(** ** The trajectory buffer *)

Lemma window_short {A : Type} (cap : nat) (l : list A) :
  (length l <= cap)%nat -> window cap l = l.
Proof.
  intros H. unfold window.
  replace (length l - cap)%nat with O by lia. reflexivity.
Qed.

Lemma window_length {A : Type} (cap : nat) (l : list A) :
  length (window cap l) = Nat.min (length l) cap.
Proof. unfold window. rewrite length_skipn. lia. Qed.

Lemma skipn_succ_tl {A : Type} (k : nat) (l : list A) :
  skipn (Datatypes.S k) l = tl (skipn k l).
Proof.
  revert l. induction k as [|k IH]; intros [|x l]; try reflexivity.
  cbn [skipn]. rewrite <- IH. reflexivity.
Qed.

(** Sliding the window by one element. *)
Lemma window_snoc {A : Type} (cap : nat) (l : list A) (p : A) :
  (0 < cap)%nat ->
  window cap (l ++ [p]) =
  if (length (window cap l) <? cap)%nat
  then window cap l ++ [p]
  else tl (window cap l) ++ [p].
Proof.
  intros Hcap. rewrite window_length. unfold window.
  rewrite length_app; cbn [length].
  destruct (Nat.ltb_spec (Nat.min (length l) cap) cap) as [Hlt|Hge].
  - replace (length l + 1 - cap)%nat with O by lia.
    replace (length l - cap)%nat with O by lia. reflexivity.
  - replace (length l + 1 - cap)%nat with (Datatypes.S (length l - cap)) by lia.
    rewrite skipn_app.
    replace (Datatypes.S (length l - cap) - length l)%nat with O by lia.
    cbn [skipn]. f_equal.
    apply skipn_succ_tl.
Qed.

(** One push on a buffer that holds a window of capacity [max_points]. *)
Lemma push_window (p : vec) (s : LorenzSimulator) (ps : list vec) (cap : nat) :
  (0 < cap)%nat -> max_points s = Z.of_nat cap ->
  trajectory s = window cap ps ->
  exists s', push p s = Ok s'
    /\ trajectory s' = window cap (ps ++ [p])
    /\ max_points s' = max_points s.
Proof.
  intros Hcap Hmax Htr.
  unfold push, add_trajectory_point; cbn [trajectory max_points set_pos pos].
  rewrite (window_snoc cap ps p Hcap), Hmax, Htr.
  destruct (Nat.ltb_spec (length (window cap ps)) cap) as [Hlt|Hge].
  - destruct (Z.ltb_spec (Z.of_nat (length (window cap ps))) (Z.of_nat cap));
      [|lia].
    eexists; split; [reflexivity|]. split; [reflexivity|exact Hmax].
  - destruct (Z.ltb_spec (Z.of_nat (length (window cap ps))) (Z.of_nat cap));
      [lia|].
    destruct (window cap ps) as [|x t] eqn:E; [cbn in Hge; lia|].
    cbn [pop0 bind snd tl].
    eexists; split; [reflexivity|]. split; [reflexivity|exact Hmax].
Qed.

Lemma pushes_window (qs ps : list vec) (s : LorenzSimulator) (cap : nat) :
  (0 < cap)%nat -> max_points s = Z.of_nat cap ->
  trajectory s = window cap ps ->
  exists s', pushes qs s = Ok s' /\ trajectory s' = window cap (ps ++ qs).
Proof.
  intros Hcap. revert ps s.
  induction qs as [|q qs IH]; intros ps s Hmax Htr.
  - exists s. rewrite app_nil_r. split; [reflexivity|assumption].
  - destruct (push_window q s ps cap Hcap Hmax Htr) as (s1 & H1 & T1 & M1).
    destruct (IH (ps ++ [q]) s1) as (s2 & H2 & T2); [congruence|assumption|].
    exists s2. cbn [pushes]. rewrite H1. cbn [bind].
    rewrite <- app_assoc in T2. split; assumption.
Qed.

(** C2.  Pushing the points [ps], in order, into the empty buffer of
    capacity 300 never fails and leaves exactly the last 300 of them, oldest
    first: the length is min(k, 300) for k pushes, so it never exceeds the
    capacity and is 300 from the 300th push on. *)
Theorem trajectory_is_sliding_window (ps : list vec) :
  exists s', pushes ps init = Ok s'
    /\ trajectory s' = window 300 ps
    /\ trajectory s' = skipn (length ps - 300) ps
    /\ length (trajectory s') = Nat.min (length ps) 300.
Proof.
  destruct (pushes_window ps [] init 300) as (s' & H & T);
    [lia|reflexivity|reflexivity|].
  exists s'. cbn [app] in T. repeat split; try assumption.
  rewrite T. apply window_length.
Qed.

(** A push changes the trajectory only. *)
Lemma add_trajectory_point_keeps (s s' : LorenzSimulator) :
  add_trajectory_point s = Ok s' -> exists t, s' = set_trajectory s t.
Proof.
  unfold add_trajectory_point.
  destruct (Z.of_nat (length (trajectory s)) <? max_points s)%Z.
  - intros H. injection H as <-. eexists. reflexivity.
  - destruct (pop0 (trajectory s)); [|discriminate].
    cbn [bind]. intros H. injection H as <-. eexists. reflexivity.
Qed.

(** The integrator does not read the trajectory. *)
Lemma state_sequence_set_trajectory (n : nat) (s : LorenzSimulator) (t : list vec) :
  state_sequence n (set_trajectory s t) = state_sequence n s.
Proof.
  revert s. induction n as [|n IH]; intros s; [reflexivity|].
  cbn [state_sequence].
  change (update_lorenz (set_trajectory s t))
    with (set_trajectory (update_lorenz s) t).
  rewrite IH. reflexivity.
Qed.

(** In the driver's loop the pushed points are the integrator's states. *)
Lemma step_loop_window (n : nat) (s : LorenzSimulator) (ps : list vec) (cap : nat) :
  (0 < cap)%nat -> max_points s = Z.of_nat cap ->
  trajectory s = window cap ps ->
  exists s',
    for_range n (fun s0 => add_trajectory_point (update_lorenz s0)) s = Ok s'
    /\ trajectory s' = window cap (ps ++ state_sequence n s).
Proof.
  intros Hcap. revert s ps.
  induction n as [|n IH]; intros s ps Hmax Htr.
  - exists s. cbn [state_sequence]. rewrite app_nil_r.
    split; [reflexivity|assumption].
  - destruct (push_window (pos (update_lorenz s)) s ps cap Hcap Hmax Htr)
      as (s1 & H1 & T1 & M1).
    unfold push in H1. rewrite <- update_lorenz_frame in H1.
    destruct (IH s1 (ps ++ [pos (update_lorenz s)])) as (s2 & H2 & T2);
      [congruence|assumption|].
    exists s2. cbn [for_range state_sequence]. rewrite H1. cbn [bind].
    split; [exact H2|].
    rewrite T2, <- app_assoc. cbn [app].
    assert (E : state_sequence n s1 = state_sequence n (update_lorenz s)).
    { destruct (add_trajectory_point_keeps _ _ H1) as (t & ->).
      apply state_sequence_set_trajectory. }
    rewrite E. reflexivity.
Qed.

Example window_example :
  window 3 [1; 2; 3; 4; 5]%nat = [3; 4; 5]%nat.
Proof. reflexivity. Qed.

(* ================================================================= *)
(** ** The viewport projector *)

Lemma get_screen_coordinates_fit (s : LorenzSimulator) :
  trajectory s <> [] ->
  get_screen_coordinates s =
  (fit (map fst (rotated s)) (fit_scale (map fst (rotated s)) (map snd (rotated s))),
   fit (map snd (rotated s)) (fit_scale (map fst (rotated s)) (map snd (rotated s)))).
Proof.
  intros Hne. unfold get_screen_coordinates, rotated.
  destruct (trajectory s) as [|p ps]; [congruence|].
  cbn [map]. unfold fit, fit_scale, span, middle, lowest, highest.
  cbn [map]. rewrite !map_map. reflexivity.
Qed.

Lemma clip_within (v : R) : within_margin (clip v 5 195).
Proof.
  unfold within_margin, clip, Rmin, Rmax.
  destruct (Rle_dec v 5); destruct (Rle_dec _ 195); lra.
Qed.

Lemma fit_within (l : list R) (scale : R) : Forall within_margin (fit l scale).
Proof.
  unfold fit. apply Forall_forall. intros v Hv.
  apply in_map_iff in Hv. destruct Hv as (w & <- & _). apply clip_within.
Qed.

Lemma fit_length (l : list R) (scale : R) : length (fit l scale) = length l.
Proof. unfold fit. apply length_map. Qed.

Lemma guarded_lower (r : R) : 0.1 <= guarded r.
Proof. unfold guarded. destruct (Rlt_dec r 0.1); lra. Qed.

Lemma guarded_small (r : R) : r < 0.1 -> guarded r = 0.1.
Proof. unfold guarded. destruct (Rlt_dec r 0.1); lra. Qed.


(** C3.  For a non-empty trajectory at any rotation angle, the projector
    returns one x and one y per trajectory point, all within [5,195]; the
    two divisors it uses are the axis ranges of the rotated bounding box
    after the guard, they are at least 0.1 (so never zero), and equal 0.1
    whenever the range is below 0.1. *)
Theorem projection_fits_viewport (s : LorenzSimulator) :
  trajectory s <> [] ->
  let xs := map fst (rotated s) in
  let ys := map snd (rotated s) in
  length (fst (get_screen_coordinates s)) = length (trajectory s)
  /\ length (snd (get_screen_coordinates s)) = length (trajectory s)
  /\ Forall within_margin (fst (get_screen_coordinates s))
  /\ Forall within_margin (snd (get_screen_coordinates s))
  /\ get_screen_coordinates s =
     (fit xs (py_min (80 / guarded (span xs)) (80 / guarded (span ys))),
      fit ys (py_min (80 / guarded (span xs)) (80 / guarded (span ys))))
  /\ 0 < guarded (span xs) /\ 0 < guarded (span ys)
  /\ (span xs < 0.1 -> guarded (span xs) = 0.1)
  /\ (span ys < 0.1 -> guarded (span ys) = 0.1).
Proof.
  intros Hne xs ys.
  rewrite (get_screen_coordinates_fit s Hne). cbn [fst snd].
  fold xs ys. unfold fit_scale.
  rewrite !fit_length. unfold xs, ys, rotated. rewrite !length_map.
  repeat split; try apply fit_within; try apply guarded_small.
  - pose proof (guarded_lower (span (map fst (map (project_3d_to_2d s) (trajectory s))))). lra.
  - pose proof (guarded_lower (span (map snd (map (project_3d_to_2d s) (trajectory s))))). lra.
Qed.

Lemma projection_fits_viewport_witness :
  length (fst (get_screen_coordinates (set_trajectory init [(1, 2, 3)]))) = 1%nat.
Proof.
  assert (Hne : trajectory (set_trajectory init [(1, 2, 3)]) <> [])
    by (cbn; discriminate).
  exact (proj1 (projection_fits_viewport (set_trajectory init [(1, 2, 3)]) Hne)).
Defined.

(** *** Uniform scaling of the input *)

(** Case analysis on every [Rmin] and [Rmax], innermost first. *)
Ltac minmax :=
  unfold Rmin, Rmax;
  repeat match goal with
  | |- context [Rle_dec ?u ?v] =>
    lazymatch u with
    | context [Rle_dec] => fail
    | _ =>
      lazymatch v with
      | context [Rle_dec] => fail
      | _ => destruct (Rle_dec u v)
      end
    end
  end;
  lra.



















(* ================================================================= *)
(** ** The rasterizer *)

Lemma in_py_range (a b k : Z) : In k (py_range a b) <-> (a <= k < b)%Z.
Proof.
  unfold py_range. rewrite in_map_iff. split.
  - intros (n & <- & Hn). apply in_seq in Hn. lia.
  - intros H. exists (Z.to_nat (k - a)). split; [lia|].
    apply in_seq. lia.
Qed.

Lemma int_IZR (z : Z) : int (IZR z) = z.
Proof.
  unfold int. destruct (Rle_dec 0 (IZR z)) as [H|H].
  - symmetry. apply Int_part_spec. lra.
  - rewrite <- opp_IZR.
    rewrite <- (Int_part_spec (IZR (- z)) (- z)); [lia|lra].
Qed.

Lemma int_floor (x : R) : 0 <= x -> IZR (int x) <= x < IZR (int x) + 1.
Proof.
  intros H. unfold int. destruct (Rle_dec 0 x); [|contradiction].
  pose proof (base_Int_part x). lra.
Qed.

Lemma int_range (x : R) (a b : Z) :
  0 <= x -> IZR a <= x -> x <= IZR b -> (a <= int x <= b)%Z.
Proof.
  intros H0 Ha Hb. pose proof (int_floor x H0) as [H1 H2].
  split.
  - apply Z.lt_succ_r. apply lt_IZR. rewrite succ_IZR. lra.
  - apply le_IZR. lra.
Qed.

Lemma in_span_true (v : R) : 0 <= v < 200 -> in_span v = true.
Proof.
  intros [H1 H2]. unfold in_span.
  destruct (Rle_dec 0 v); [|contradiction].
  destruct (Rlt_dec v 200); [reflexivity|contradiction].
Qed.

(** On clamped coordinates the 3x3 guard holds and the pixel is in the frame. *)
Lemma guard3_within (x y : R) (dx dy : Z) :
  within_margin x -> within_margin y ->
  In dx (py_range (-1) 2) -> In dy (py_range (-1) 2) ->
  guard3 x y dx dy = true
  /\ (0 <= int (x + IZR dx) < 200)%Z /\ (0 <= int (y + IZR dy) < 200)%Z.
Proof.
  unfold within_margin. intros Hx Hy Hdx Hdy.
  apply in_py_range in Hdx. apply in_py_range in Hdy.
  assert (-1 <= IZR dx <= 1) by (split; apply IZR_le; lia).
  assert (-1 <= IZR dy <= 1) by (split; apply IZR_le; lia).
  unfold guard3. rewrite !in_span_true by lra.
  split; [reflexivity|].
  split.
  - assert (4 <= int (x + IZR dx) <= 196)%Z by (apply int_range; lra). lia.
  - assert (4 <= int (y + IZR dy) <= 196)%Z by (apply int_range; lra). lia.
Qed.

Lemma int_plus_IZR (x : R) (k : Z) :
  0 <= x -> 0 <= x + IZR k -> int (x + IZR k) = (int x + k)%Z.
Proof.
  intros Hx Hxk. pose proof (int_floor x Hx) as [H1 H2].
  unfold int at 1. destruct (Rle_dec 0 (x + IZR k)); [|contradiction].
  symmetry. apply Int_part_spec. rewrite plus_IZR. lra.
Qed.

Lemma within_margin_int (x : R) : within_margin x -> (5 <= int x <= 195)%Z.
Proof. unfold within_margin. intros H. apply int_range; lra. Qed.

Lemma guard5_within (cx cy dx dy : Z) :
  (5 <= cx <= 195)%Z -> (5 <= cy <= 195)%Z ->
  In dx (py_range (-2) 3) -> In dy (py_range (-2) 3) ->
  guard5 cx cy dx dy = true.
Proof.
  intros Hx Hy Hdx Hdy.
  apply in_py_range in Hdx. apply in_py_range in Hdy.
  unfold guard5. rewrite !andb_true_iff.
  repeat split; try apply Z.leb_le; try apply Z.ltb_lt; lia.
Qed.

(** Two nested loops whose guard always holds draw every addressed pixel. *)
Lemma guarded_loops_draw (g : Z -> Z -> bool) (fx fy : Z -> Z)
      (L1 L2 : list Z) (img : image) :
  (forall dx dy, In dx L1 -> In dy L2 -> g dx dy = true) ->
  fold_left (fun im dx =>
    fold_left (fun im dy =>
      if g dx dy then draw_point im (fx dx) (fy dy) 0 else im) L2 im) L1 img
  = draw_points img (flat_map (fun dx => map (fun dy => (fx dx, fy dy)) L2) L1).
Proof.
  revert img. induction L1 as [|dx L1 IH]; intros img Hg; [reflexivity|].
  cbn [fold_left flat_map]. unfold draw_points. rewrite fold_left_app.
  fold (draw_points img (map (fun dy => (fx dx, fy dy)) L2)).
  assert (Hin : fold_left
            (fun im dy => if g dx dy then draw_point im (fx dx) (fy dy) 0 else im)
            L2 img
          = draw_points img (map (fun dy => (fx dx, fy dy)) L2)).
  { assert (Hd : forall dy, In dy L2 -> g dx dy = true)
      by (intros dy H; apply Hg; [left; reflexivity|assumption]).
    clear Hg IH. revert img. induction L2 as [|dy L2 IH2]; intros img; [reflexivity|].
    cbn [fold_left map]. unfold draw_points; cbn [fold_left fst snd].
    rewrite Hd by (left; reflexivity).
    apply IH2. intros dy' H. apply Hd. right. assumption. }
  rewrite Hin. apply IH.
  intros dx' dy H1 H2. apply Hg; [right; assumption|assumption].
Qed.

Lemma flat_map_ext_in {A B : Type} (f g : A -> list B) (l : list A) :
  (forall a, In a l -> f a = g a) -> flat_map f l = flat_map g l.
Proof.
  induction l as [|a l IH]; intros H; [reflexivity|].
  cbn [flat_map]. rewrite H by (left; reflexivity).
  rewrite IH; [reflexivity|]. intros b Hb. apply H. right. assumption.
Qed.

(** A pixel after drawing in-frame points: black if addressed, else unchanged. *)
Lemma draw_points_pixel (ts : list (Z * Z)) (img : image) (i j : Z) :
  Forall (fun t => (0 <= fst t < 200)%Z /\ (0 <= snd t < 200)%Z) ts ->
  draw_points img ts i j
  = if existsb (fun t => (i =? fst t)%Z && (j =? snd t)%Z) ts then 0%Z else img i j.
Proof.
  intros H. revert img. induction H as [|t ts Ht _ IH]; intros img; [reflexivity|].
  unfold draw_points in *. cbn [fold_left existsb]. rewrite IH.
  destruct (existsb _ ts); [rewrite orb_true_r; reflexivity|].
  rewrite orb_false_r. unfold draw_point.
  destruct Ht as [[H1 H2] [H3 H4]].
  apply Z.leb_le in H1, H3. apply Z.ltb_lt in H2, H4.
  rewrite H1, H2, H3, H4. reflexivity.
Qed.

Lemma in_targets (cx cy h i j : Z) :
  existsb (fun t => (i =? fst t)%Z && (j =? snd t)%Z) (targets cx cy h)
  = in_block cx cy h i j.
Proof.
  apply eq_true_iff_eq. rewrite existsb_exists. unfold in_block, targets.
  rewrite !andb_true_iff, !Z.leb_le. split.
  - intros ([a b] & Hin & Heq). apply in_flat_map in Hin.
    destruct Hin as (dx & Hdx & Hin). apply in_map_iff in Hin.
    destruct Hin as (dy & Hpair & Hdy).
    apply in_py_range in Hdx, Hdy. injection Hpair as <- <-.
    cbn [fst snd] in Heq. apply andb_true_iff in Heq.
    rewrite !Z.eqb_eq in Heq. lia.
  - intros H. exists (i, j). split.
    + apply in_flat_map. exists (i - cx)%Z. split; [apply in_py_range; lia|].
      apply in_map_iff. exists (j - cy)%Z. split; [f_equal; lia|].
      apply in_py_range; lia.
    + cbn [fst snd]. rewrite !Z.eqb_refl. reflexivity.
Qed.

Lemma targets_in_frame (cx cy h : Z) :
  (h <= cx < 200 - h)%Z -> (h <= cy < 200 - h)%Z ->
  Forall (fun t => (0 <= fst t < 200)%Z /\ (0 <= snd t < 200)%Z) (targets cx cy h).
Proof.
  intros Hx Hy. apply Forall_forall. intros [a b] Hin.
  unfold targets in Hin. apply in_flat_map in Hin.
  destruct Hin as (dx & Hdx & Hin). apply in_map_iff in Hin.
  destruct Hin as (dy & Hpair & Hdy).
  apply in_py_range in Hdx, Hdy. injection Hpair as <- <-.
  cbn [fst snd]. lia.
Qed.

(** The 5x5 stroke around an in-margin centre is the block of half-width 2. *)
Lemma stroke5_pixel (img : image) (cx cy i j : Z) :
  (5 <= cx <= 195)%Z -> (5 <= cy <= 195)%Z ->
  stroke5 img cx cy i j = if in_block cx cy 2 i j then 0%Z else img i j.
Proof.
  intros Hx Hy. unfold stroke5.
  rewrite (guarded_loops_draw (guard5 cx cy) (fun dx => (cx + dx)%Z)
             (fun dy => (cy + dy)%Z) (py_range (-2) 3) (py_range (-2) 3) img)
    by (intros; apply guard5_within; assumption).
  change (flat_map _ (py_range (-2) 3)) with (targets cx cy 2).
  rewrite draw_points_pixel by (apply targets_in_frame; lia).
  rewrite in_targets. reflexivity.
Qed.

(** The 3x3 stroke of an in-margin point is the block of half-width 1
    around its rounded-down coordinates. *)
Lemma stroke3_pixel (img : image) (x y : R) (i j : Z) :
  within_margin x -> within_margin y ->
  stroke3 img (x, y) i j = if in_block (int x) (int y) 1 i j then 0%Z else img i j.
Proof.
  intros Hx Hy. unfold stroke3.
  rewrite (guarded_loops_draw (guard3 x y) (fun dx => int (x + IZR dx))
             (fun dy => int (y + IZR dy)) (py_range (-1) 2) (py_range (-1) 2) img)
    by (intros dx dy H1 H2; apply guard3_within; assumption).
  assert (Ht : flat_map (fun dx => map (fun dy => (int (x + IZR dx), int (y + IZR dy)))
                                     (py_range (-1) 2)) (py_range (-1) 2)
               = targets (int x) (int y) 1).
  { unfold targets, within_margin in *.
    change (py_range (- (1)) (1 + 1)) with (py_range (-1) 2).
    apply flat_map_ext_in. intros dx Hdx. apply map_ext_in. intros dy Hdy.
    apply in_py_range in Hdx, Hdy.
    assert (-1 <= IZR dx) by (apply IZR_le; lia).
    assert (-1 <= IZR dy) by (apply IZR_le; lia).
    rewrite !int_plus_IZR by lra. reflexivity. }
  rewrite Ht.
  pose proof (within_margin_int x Hx). pose proof (within_margin_int y Hy).
  rewrite draw_points_pixel by (apply targets_in_frame; lia).
  rewrite in_targets. reflexivity.
Qed.

Lemma screen_coordinates_within (s : LorenzSimulator) :
  Forall within_margin (fst (get_screen_coordinates s))
  /\ Forall within_margin (snd (get_screen_coordinates s))
  /\ length (fst (get_screen_coordinates s)) = length (snd (get_screen_coordinates s)).
Proof.
  destruct (trajectory s) as [|p ps] eqn:E.
  - unfold get_screen_coordinates. rewrite E. cbn. repeat split; constructor.
  - assert (Hne : trajectory s <> []) by (rewrite E; discriminate).
    rewrite (get_screen_coordinates_fit s Hne). cbn [fst snd].
    rewrite !fit_length, !length_map.
    repeat split; apply fit_within.
Qed.

Lemma last_in {A : Type} (l : list A) (d : A) : l <> [] -> In (last l d) l.
Proof.
  induction l as [|x l IH]; intros H; [congruence|].
  destruct l as [|y l]; [left; reflexivity|].
  right. apply IH. discriminate.
Qed.

(** C10.  On the coordinates the projector returns, every iteration of the
    3x3 loops (offsets -1..1 around every point) and of the 5x5 loops
    (offsets -2..2 around the truncated last point, run when the list is
    not empty) passes its bounds guard, and the pixel it writes has both
    indices in 0..199. *)
Theorem strokes_stay_in_frame (s : LorenzSimulator) :
  (forall x y dx dy,
      In (x, y) (combine (fst (get_screen_coordinates s))
                         (snd (get_screen_coordinates s))) ->
      In dx (py_range (-1) 2) -> In dy (py_range (-1) 2) ->
      guard3 x y dx dy = true
      /\ (0 <= int (x + IZR dx) < 200)%Z /\ (0 <= int (y + IZR dy) < 200)%Z)
  /\ (forall dx dy,
      (0 < length (fst (get_screen_coordinates s)))%nat ->
      In dx (py_range (-2) 3) -> In dy (py_range (-2) 3) ->
      let current_x := int (last (fst (get_screen_coordinates s)) 0) in
      let current_y := int (last (snd (get_screen_coordinates s)) 0) in
      guard5 current_x current_y dx dy = true
      /\ (0 <= current_x + dx < 200)%Z /\ (0 <= current_y + dy < 200)%Z).
Proof.
  destruct (screen_coordinates_within s) as (Hx & Hy & Hlen).
  rewrite Forall_forall in Hx, Hy.
  split.
  - intros x y dx dy Hin Hdx Hdy.
    apply guard3_within; try assumption.
    + apply Hx. eapply in_combine_l. exact Hin.
    + apply Hy. eapply in_combine_r. exact Hin.
  - intros dx dy Hpos Hdx Hdy current_x current_y.
    assert (Hcx : (5 <= current_x <= 195)%Z).
    { apply within_margin_int, Hx, last_in.
      destruct (fst (get_screen_coordinates s)); [cbn in Hpos; lia|discriminate]. }
    assert (Hcy : (5 <= current_y <= 195)%Z).
    { apply within_margin_int, Hy, last_in.
      rewrite Hlen in Hpos.
      destruct (snd (get_screen_coordinates s)); [cbn in Hpos; lia|discriminate]. }
    split; [apply guard5_within; assumption|].
    apply in_py_range in Hdx, Hdy. lia.
Qed.

Lemma amin_repeat (x : R) (n : nat) : amin x (repeat x n) = x.
Proof.
  unfold amin. induction n as [|n IH]; [reflexivity|].
  cbn [repeat fold_left]. replace (Rmin x x) with x by minmax. exact IH.
Qed.

Lemma amax_repeat (x : R) (n : nat) : amax x (repeat x n) = x.
Proof.
  unfold amax. induction n as [|n IH]; [reflexivity|].
  cbn [repeat fold_left]. replace (Rmax x x) with x by minmax. exact IH.
Qed.

Lemma map_repeat {A B : Type} (f : A -> B) (a : A) (n : nat) :
  map f (repeat a n) = repeat (f a) n.
Proof. induction n as [|n IH]; [reflexivity|]. cbn. rewrite IH. reflexivity. Qed.

Lemma fit_repeat (a k : R) (n : nat) :
  fit (repeat a (Datatypes.S n)) k = repeat 100 (Datatypes.S n).
Proof.
  unfold fit. rewrite map_repeat. f_equal.
  unfold middle, lowest, highest. cbn [repeat].
  rewrite amin_repeat, amax_repeat.
  replace ((a - (a + a) / 2) * k + 100) with 100 by field.
  unfold clip. minmax.
Qed.

(** A trajectory of one point repeated: both ranges are 0, the guard puts
    0.1 in their place, and every point lands on the viewport centre. *)
Lemma projection_repeated_point (s : LorenzSimulator) (p : vec) (n : nat) :
  get_screen_coordinates (set_trajectory s (repeat p (Datatypes.S n)))
  = (repeat 100 (Datatypes.S n), repeat 100 (Datatypes.S n)).
Proof.
  rewrite get_screen_coordinates_fit by (cbn; discriminate).
  unfold rotated. cbn [trajectory set_trajectory].
  rewrite !map_repeat, !fit_repeat. reflexivity.
Qed.

Lemma paint_single_point (i j : Z) :
  paint_points (Image_new 255) [100] [100] i j
  = if in_block 100 100 1 i j then 0%Z else 255%Z.
Proof.
  unfold paint_points. cbn [combine fold_left].
  rewrite stroke3_pixel by (unfold within_margin; lra).
  rewrite (int_IZR 100). reflexivity.
Qed.

(** C6.  For a trajectory of exactly one point, at any rotation angle, the
    projector returns the viewport centre (100, 100); the 3x3 strokes set
    exactly the pixels 99..101 x 99..101, which lie inside the 5x5 block;
    and in the painted frame a pixel is 0 (set) exactly when it is in the
    block 98..102 x 98..102 and 255 (background) everywhere else. *)
Theorem single_point_frame (s : LorenzSimulator) (p : vec) :
  get_screen_coordinates (set_trajectory s [p]) = ([100], [100])
  /\ (forall i j,
       paint_points (Image_new 255)
         (fst (get_screen_coordinates (set_trajectory s [p])))
         (snd (get_screen_coordinates (set_trajectory s [p]))) i j
       = if in_block 100 100 1 i j then 0%Z else 255%Z)
  /\ (forall i j, in_block 100 100 1 i j = true -> in_block 100 100 2 i j = true)
  /\ (forall i j,
       paint_trajectory
         (fst (get_screen_coordinates (set_trajectory s [p])))
         (snd (get_screen_coordinates (set_trajectory s [p]))) i j
       = if ((98 <=? i) && (i <=? 102) && (98 <=? j) && (j <=? 102))%Z
         then 0%Z else 255%Z).
Proof.
  pose proof (projection_repeated_point s p 0) as E. cbn [repeat] in E.
  rewrite E. cbn [fst snd].
  assert (Hsub : forall i j,
             in_block 100 100 1 i j = true -> in_block 100 100 2 i j = true).
  { intros i j. unfold in_block. rewrite !andb_true_iff, !Z.leb_le. lia. }
  split; [reflexivity|]. split; [apply paint_single_point|]. split; [exact Hsub|].
  intros i j. unfold paint_trajectory. cbn [length last].
  change (0 <? Z.of_nat 1)%Z with true. cbv iota.
  rewrite (int_IZR 100).
  rewrite stroke5_pixel by lia.
  rewrite paint_single_point.
  change ((98 <=? i) && (i <=? 102) && (98 <=? j) && (j <=? 102))%Z
    with (in_block 100 100 2 i j).
  destruct (in_block 100 100 2 i j) eqn:E2; [reflexivity|].
  destruct (in_block 100 100 1 i j) eqn:E1; [|reflexivity].
  apply Hsub in E1. congruence.
Qed.

(* ================================================================= *)
(** ** The camera angle never equals a full turn

    The wrap test of [simulate_frame] is strict, so the angle stays below
    2 pi only because a multiple of 0.2 is never a multiple of 2 pi: pi is
    irrational.  The proof is Niven's, with the mean value theorem in place
    of the integral: for f = x^n (a - b x)^n and
    G = sum_j (-1)^j (f^(2j+1) sin - f^(2j) cos), G' = f sin, and
    G(pi) - G(0) is a multiple of n!. *)

Lemma peval_padd p q x : peval (padd p q) x = peval p x + peval q x.
Proof.
  revert q. induction p as [|a p IH]; intros [|b q]; cbn [padd peval]; try lra.
  rewrite IH, plus_IZR. ring.
Qed.

Lemma peval_pscale c p x : peval (pscale c p) x = IZR c * peval p x.
Proof.
  induction p as [|a p IH]; cbn [pscale map peval]; [ring|].
  fold (pscale c p). rewrite IH, mult_IZR. ring.
Qed.

Lemma peval_pmul p q x : peval (pmul p q) x = peval p x * peval q x.
Proof.
  induction p as [|a p IH]; cbn [pmul peval]; [ring|].
  rewrite peval_padd, peval_pscale. cbn [peval]. rewrite IH. ring.
Qed.

Lemma peval_ppow p n x : peval (ppow p n) x = peval p x ^ n.
Proof.
  induction n as [|n IH]; cbn [ppow pow]; [cbn; ring|].
  rewrite peval_pmul, IH. reflexivity.
Qed.

Lemma peval_shift n q x : peval (repeat 0%Z n ++ q) x = x ^ n * peval q x.
Proof.
  induction n as [|n IH]; cbn [repeat app peval pow]; [ring|].
  rewrite IH. ring.
Qed.

Lemma peval_niven a b n x :
  peval (niven a b n) x = x ^ n * (IZR a - IZR b * x) ^ n.
Proof.
  unfold niven. rewrite peval_shift, peval_ppow. cbn [peval].
  rewrite opp_IZR. f_equal. f_equal. ring.
Qed.

Lemma peval_pderiv_from_S i t x :
  peval (pderiv_from (S i) t) x = peval (pderiv_from i t) x + peval t x.
Proof.
  revert i. induction t as [|c t IH]; intros i; cbn [pderiv_from peval]; [ring|].
  rewrite IH, !mult_IZR, <- !INR_IZR_INZ, S_INR. ring.
Qed.

Lemma peval_pderiv_from_0 t x :
  peval (pderiv_from 0 t) x = x * peval (pderiv t) x.
Proof.
  destruct t as [|c t]; cbn [pderiv_from pderiv peval]; [ring|].
  cbn. ring.
Qed.

Lemma peval_pderiv_cons c t x :
  peval (pderiv (c :: t)) x = peval t x + x * peval (pderiv t) x.
Proof.
  cbn [pderiv]. rewrite peval_pderiv_from_S, peval_pderiv_from_0. ring.
Qed.

Lemma peval_derivable p x : derivable_pt_lim (peval p) x (peval (pderiv p) x).
Proof.
  induction p as [|c t IH].
  - apply (derivable_pt_lim_const 0).
  - rewrite peval_pderiv_cons.
    change (peval (c :: t)) with (fct_cte (IZR c) + id * peval t)%F.
    replace (peval t x + x * peval (pderiv t) x)
      with (0 + (1 * peval t x + id x * peval (pderiv t) x)) by (unfold id; ring).
    apply derivable_pt_lim_plus; [apply derivable_pt_lim_const|].
    apply derivable_pt_lim_mult; [apply derivable_pt_lim_id|exact IH].
Qed.

Lemma nth_pderiv_from i j t :
  nth i (pderiv_from j t) 0%Z = (Z.of_nat (j + i) * nth i t 0)%Z.
Proof.
  revert i j. induction t as [|c t IH]; intros i j.
  - destruct i; cbn; lia.
  - destruct i as [|i]; cbn [pderiv_from nth].
    + rewrite Nat.add_0_r. reflexivity.
    + rewrite IH. f_equal. lia.
Qed.

Lemma nth_pderiv i p :
  nth i (pderiv p) 0%Z = (Z.of_nat (S i) * nth (S i) p 0)%Z.
Proof.
  destruct p as [|c t]; cbn [pderiv].
  - destruct i; cbn; lia.
  - rewrite nth_pderiv_from. reflexivity.
Qed.

Lemma pderivs_S k p : pderivs (S k) p = pderiv (pderivs k p).
Proof. reflexivity. Qed.

Lemma nth_pderivs k p i :
  (Z.of_nat (fact i) * nth i (pderivs k p) 0
   = Z.of_nat (fact (i + k)) * nth (i + k) p 0)%Z.
Proof.
  revert i. induction k as [|k IH]; intros i.
  - rewrite Nat.add_0_r. reflexivity.
  - rewrite pderivs_S, nth_pderiv.
    replace (i + S k)%nat with (S i + k)%nat by lia.
    rewrite <- IH. cbn [fact]. lia.
Qed.

Lemma peval_0 p : peval p 0 = IZR (nth 0 p 0%Z).
Proof. destruct p as [|c t]; cbn [peval nth]; ring. Qed.

Lemma fact_divides n k : (n <= k)%nat -> exists q, fact k = (q * fact n)%nat.
Proof.
  induction 1 as [|k Hle [q Hq]].
  - exists 1%nat. lia.
  - exists (S k * q)%nat. cbn [fact]. rewrite Hq. lia.
Qed.

Lemma nth_niven_low a b n k : (k < n)%nat -> nth k (niven a b n) 0%Z = 0%Z.
Proof.
  intros H. unfold niven. rewrite app_nth1 by (rewrite repeat_length; assumption).
  apply nth_repeat.
Qed.

(** Every derivative of x^n (a - b x)^n takes at 0 a multiple of n!. *)
Lemma pderivs_niven_0 a b n k :
  exists z : Z, peval (pderivs k (niven a b n)) 0 = INR (fact n) * IZR z.
Proof.
  rewrite peval_0.
  pose proof (nth_pderivs k (niven a b n) 0) as H. cbn [fact Nat.add] in H.
  rewrite Z.mul_1_l in H. rewrite H.
  destruct (Nat.lt_ge_cases k n) as [Hlt|Hge].
  - exists 0%Z. rewrite nth_niven_low by assumption.
    rewrite Z.mul_0_r. ring.
  - destruct (fact_divides n k Hge) as [q Hq].
    exists (Z.of_nat q * nth k (niven a b n) 0)%Z.
    rewrite Hq, INR_IZR_INZ, <- mult_IZR. f_equal. lia.
Qed.

Lemma pderiv_from_length i t : length (pderiv_from i t) = length t.
Proof. revert i. induction t as [|c t IH]; intros i; cbn; [|rewrite IH]; reflexivity. Qed.

Lemma pderivs_length k p : length (pderivs k p) = (length p - k)%nat.
Proof.
  induction k as [|k IH]; [cbn; lia|].
  rewrite pderivs_S. destruct (pderivs k p) as [|c t] eqn:E.
  - cbn in *. lia.
  - cbn [pderiv]. rewrite pderiv_from_length. cbn [length] in IH. lia.
Qed.

Lemma pderivs_high k p x : (length p <= k)%nat -> peval (pderivs k p) x = 0.
Proof.
  intros H. pose proof (pderivs_length k p) as L.
  destruct (pderivs k p); [reflexivity|cbn [length] in L; lia].
Qed.

Lemma derivable_pt_lim_ext (f g : R -> R) (x l : R) :
  (forall y, f y = g y) -> derivable_pt_lim f x l -> derivable_pt_lim g x l.
Proof.
  intros E H eps Heps. destruct (H eps Heps) as [d Hd].
  exists d. intros h Hh Hlt. rewrite <- !E. apply Hd; assumption.
Qed.

(** Reflection about c/2 flips the sign of the derivative. *)
Lemma pderiv_reflect (q : poly) (s c : R) :
  (forall x, peval q (c - x) = s * peval q x) ->
  forall x, peval (pderiv q) (c - x) = - s * peval (pderiv q) x.
Proof.
  intros Hsym x.
  assert (H1 : derivable_pt_lim (fun y => peval q (c - y)) x
                 (peval (pderiv q) (c - x) * (0 - 1))).
  { apply (derivable_pt_lim_comp (fct_cte c - id)%F (peval q)).
    - apply derivable_pt_lim_minus;
        [apply derivable_pt_lim_const|apply derivable_pt_lim_id].
    - apply peval_derivable. }
  assert (H2 : derivable_pt_lim (fun y => peval q (c - y)) x
                 (s * peval (pderiv q) x)).
  { apply (derivable_pt_lim_ext (mult_real_fct s (peval q))).
    - intros y. unfold mult_real_fct. symmetry. apply Hsym.
    - apply derivable_pt_lim_scal. apply peval_derivable. }
  pose proof (uniqueness_limite _ _ _ _ H1 H2). lra.
Qed.

Lemma pderivs_reflect (q : poly) (c : R) :
  (forall x, peval q (c - x) = peval q x) ->
  forall k x, peval (pderivs k q) (c - x) = (-1) ^ k * peval (pderivs k q) x.
Proof.
  intros Hsym k. induction k as [|k IH]; intros x.
  - change (pderivs 0 q) with q. rewrite Hsym. cbn [pow]. ring.
  - rewrite pderivs_S.
    rewrite (pderiv_reflect (pderivs k q) ((-1) ^ k) c IH). cbn [pow]. ring.
Qed.

Lemma niven_reflect a b n (c : R) :
  IZR a = IZR b * c ->
  forall x, peval (niven a b n) (c - x) = peval (niven a b n) x.
Proof.
  intros H x. rewrite !peval_niven, <- !Rpow_mult_distr.
  f_equal. rewrite H. ring.
Qed.

Lemma niven_term_derivable p j x :
  derivable_pt_lim (niven_term p j) x
    ((-1) ^ j * ((peval (pderivs (2 * j + 2) p) x + peval (pderivs (2 * j) p) x)
                 * sin x)).
Proof.
  replace (2 * j + 2)%nat with (S (2 * j + 1)) by lia.
  set (A1 := pderivs (2 * j + 1) p).
  assert (E1 : A1 = pderiv (pderivs (2 * j) p)).
  { unfold A1. replace (2 * j + 1)%nat with (S (2 * j)) by lia. reflexivity. }
  rewrite pderivs_S. fold A1.
  change (niven_term p j)
    with (mult_real_fct ((-1) ^ j)
            (peval A1 * sin - peval (pderivs (2 * j) p) * cos)%F).
  replace ((peval (pderiv A1) x + peval (pderivs (2 * j) p) x) * sin x)
    with ((peval (pderiv A1) x * sin x + peval A1 x * cos x)
          - (peval A1 x * cos x + peval (pderivs (2 * j) p) x * - sin x))
    by ring.
  apply derivable_pt_lim_scal. apply derivable_pt_lim_minus.
  - apply derivable_pt_lim_mult; [apply peval_derivable|apply derivable_pt_lim_sin].
  - apply derivable_pt_lim_mult; [|apply derivable_pt_lim_cos].
    rewrite E1 at 1. apply peval_derivable.
Qed.

Lemma niven_sum_derivable p m x :
  derivable_pt_lim (niven_sum p m) x
    ((peval p x + (-1) ^ m * peval (pderivs (2 * m + 2) p) x) * sin x).
Proof.
  induction m as [|m IH].
  - change (niven_sum p 0) with (niven_term p 0).
    pose proof (niven_term_derivable p 0 x) as H.
    change (pderivs (2 * 0) p) with p in H.
    replace ((peval p x + (-1) ^ 0 * peval (pderivs (2 * 0 + 2) p) x) * sin x)
      with ((-1) ^ 0 * ((peval (pderivs (2 * 0 + 2) p) x + peval p x) * sin x))
      by ring.
    exact H.
  - change (niven_sum p (S m)) with (niven_sum p m + niven_term p (S m))%F.
    pose proof (niven_term_derivable p (S m) x) as H.
    replace (2 * S m)%nat with (2 * m + 2)%nat in H by lia.
    replace ((peval p x + (-1) ^ S m * peval (pderivs (2 * S m + 2) p) x) * sin x)
      with ((peval p x + (-1) ^ m * peval (pderivs (2 * m + 2) p) x) * sin x
            + (-1) ^ S m * ((peval (pderivs (2 * m + 2 + 2) p) x
                             + peval (pderivs (2 * m + 2) p) x) * sin x)).
    + apply derivable_pt_lim_plus; assumption.
    + replace (2 * S m + 2)%nat with (2 * m + 2 + 2)%nat by lia.
      cbn [pow]. ring.
Qed.

Lemma niven_sum_ends a b n m :
  PI = IZR a / IZR b -> IZR b <> 0 ->
  exists z : Z,
    niven_sum (niven a b n) m PI - niven_sum (niven a b n) m 0
    = INR (fact n) * IZR z.
Proof.
  intros Hpi Hb.
  assert (Hterm : forall j, exists z : Z,
             niven_term (niven a b n) j PI - niven_term (niven a b n) j 0
             = INR (fact n) * IZR z).
  { intros j. destruct (pderivs_niven_0 a b n (2 * j)) as [z Hz].
    exists ((-1) ^ Z.of_nat j * 2 * z)%Z.
    unfold niven_term. rewrite sin_PI, cos_PI, sin_0, cos_0.
    pose proof (pderivs_reflect (niven a b n) PI
                  (niven_reflect a b n PI ltac:(rewrite Hpi; field; assumption))
                  (2 * j) 0) as Hr.
    rewrite Rminus_0_r in Hr. rewrite Hr, pow_1_even, Hz.
    rewrite !mult_IZR, <- pow_IZR. ring. }
  induction m as [|m [z Hz]].
  - apply Hterm.
  - destruct (Hterm (S m)) as [z' Hz'].
    exists (z + z')%Z. unfold niven_sum in *. cbn [sum_f_R0].
    rewrite plus_IZR.
    replace (INR (fact n) * (IZR z + IZR z'))
      with (INR (fact n) * IZR z + INR (fact n) * IZR z') by ring.
    rewrite <- Hz, <- Hz'. ring.
Qed.

Theorem PI_irrational (a b : Z) : (0 < b)%Z -> PI <> IZR a / IZR b.
Proof.
  intros Hb Hpi.
  assert (HbR : 0 < IZR b) by (apply IZR_lt; assumption).
  assert (Hab : IZR a = IZR b * PI) by (rewrite Hpi; field; lra).
  pose proof PI_RGT_0 as Hpos. pose proof PI_4 as H4.
  assert (HaR : 0 < IZR a) by (rewrite Hab; apply Rmult_lt_0_compat; lra).
  destruct (cv_speed_pow_fact (PI * IZR a) (1 / 4) ltac:(lra)) as [n Hn].
  specialize (Hn n (Nat.le_refl n)).
  unfold Rdist in Hn. rewrite Rminus_0_r in Hn.
  apply Rabs_def2 in Hn. destruct Hn as [Hn _].
  pose proof (INR_fact_lt_0 n) as Hfact.
  set (P := niven a b n) in *.
  set (m := length P).
  destruct (MVT_cor2 (niven_sum P m)
              (fun x => (peval P x + (-1) ^ m * peval (pderivs (2 * m + 2) P) x)
                        * sin x) 0 PI Hpos
              (fun c _ => niven_sum_derivable P m c)) as (xi & Hmvt & Hxi).
  cbv beta in Hmvt.
  rewrite (pderivs_high (2 * m + 2) P xi) in Hmvt by (unfold m; lia).
  destruct (niven_sum_ends a b n m Hpi ltac:(lra)) as [z Hz].
  fold P in Hz. rewrite Hz in Hmvt.
  unfold P in Hmvt. rewrite peval_niven in Hmvt.
  assert (Hlin : 0 < IZR a - IZR b * xi <= IZR a) by nra.
  assert (Hs : 0 < sin xi <= 1)
    by (split; [apply sin_gt_0; lra|apply SIN_bound]).
  assert (Hp1 : 0 < xi ^ n <= PI ^ n)
    by (split; [apply pow_lt; lra|apply pow_incr; lra]).
  assert (Hp2 : 0 < (IZR a - IZR b * xi) ^ n <= IZR a ^ n)
    by (split; [apply pow_lt; lra|apply pow_incr; lra]).
  set (u := xi ^ n) in *. set (v := (IZR a - IZR b * xi) ^ n) in *.
  assert (Hrhs : 0 < (u * v + (-1) ^ m * 0) * sin xi * (PI - 0)
                 <= 4 * (PI * IZR a) ^ n).
  { rewrite Rpow_mult_distr.
    set (w := PI ^ n) in *. set (t := IZR a ^ n) in *.
    assert (0 < u * v <= w * t) by nra.
    assert (0 < u * v * sin xi <= w * t) by nra.
    split; nra. }
  rewrite <- Hmvt in Hrhs.
  assert (Hz1 : (1 <= z)%Z).
  { apply Z.lt_pred_le. apply lt_IZR. cbn. nra. }
  apply IZR_le in Hz1.
  assert (INR (fact n) <= 4 * (PI * IZR a) ^ n) by nra.
  assert (Hq : (PI * IZR a) ^ n / INR (fact n) * INR (fact n) = (PI * IZR a) ^ n)
    by (field; lra).
  nra.
Qed.

Lemma PI_above : 3.1 < PI.
Proof.
  pose proof (PI_2_3_7_ineq 0) as [H _].
  unfold sum_f_R0, tg_alt, PI_2_3_7_tg, Ratan_seq in H. simpl in H. lra.
Qed.

Lemma PI_below : PI < 3.2.
Proof.
  pose proof (PI_2_3_7_ineq 1) as [_ H].
  unfold sum_f_R0, tg_alt, PI_2_3_7_tg, Ratan_seq in H. simpl in H. lra.
Qed.

(* ================================================================= *)
(** ** The driver *)

Lemma same_settings_refl (s : LorenzSimulator) : same_settings s s.
Proof. repeat split. Qed.

Lemma same_settings_trans (s1 s2 s3 : LorenzSimulator) :
  same_settings s1 s2 -> same_settings s2 s3 -> same_settings s1 s3.
Proof.
  unfold same_settings. intros (?&?&?&?&?&?&?&?) (?&?&?&?&?&?&?&?).
  repeat split; congruence.
Qed.

(** With a positive capacity a push cannot fail. *)
Lemma add_trajectory_point_ok (s : LorenzSimulator) :
  (0 < max_points s)%Z ->
  exists s', add_trajectory_point s = Ok s' /\ same_settings s s'.
Proof.
  intros Hcap. unfold add_trajectory_point.
  destruct (Z.ltb_spec (Z.of_nat (length (trajectory s))) (max_points s)).
  - eexists; split; [reflexivity|]. repeat split.
  - destruct (trajectory s) as [|x t]; [cbn [length] in *; lia|].
    cbn [pop0 bind]. eexists; split; [reflexivity|]. repeat split.
Qed.

Lemma step_loop_ok (k : nat) (s : LorenzSimulator) :
  (0 < max_points s)%Z ->
  exists s',
    for_range k (fun s0 => add_trajectory_point (update_lorenz s0)) s = Ok s'
    /\ same_settings s s'.
Proof.
  revert s. induction k as [|k IH]; intros s Hcap.
  - exists s. split; [reflexivity|apply same_settings_refl].
  - destruct (add_trajectory_point_ok (update_lorenz s) Hcap) as (s1 & H1 & E1).
    assert (Hcap1 : (0 < max_points s1)%Z).
    { destruct E1 as (_&_&_&_&E&_). rewrite E. exact Hcap. }
    destruct (IH s1 Hcap1) as (s2 & H2 & E2).
    exists s2. cbn [for_range]. rewrite H1. cbn [bind].
    split; [exact H2|].
    apply (same_settings_trans s s1 s2); [|exact E2].
    apply (same_settings_trans s (update_lorenz s) s1); [repeat split|exact E1].
Qed.

Lemma simulate_frame_ok (s : LorenzSimulator) :
  (0 < max_points s)%Z ->
  exists s', simulate_frame s = Ok s'
    /\ rotation_angle s' = wrap_angle (rotation_angle s)
    /\ max_points s' = max_points s
    /\ display_width s' = display_width s
    /\ display_height s' = display_height s.
Proof.
  intros Hcap. destruct (step_loop_ok 50 s Hcap) as (s1 & H1 & E1).
  exists (rotate_view s1). unfold simulate_frame. rewrite H1. cbn [bind].
  destruct E1 as (_&_&_&_&Em&Ea&Ew&Eh).
  split; [reflexivity|].
  unfold rotate_view, wrap_angle; cbn [rotation_angle max_points display_width
    display_height set_rotation_angle].
  rewrite Ea. repeat split; assumption.
Qed.

Lemma simulate_frame_angle (s s' : LorenzSimulator) :
  simulate_frame s = Ok s' -> rotation_angle s' = wrap_angle (rotation_angle s).
Proof.
  unfold simulate_frame.
  assert (Hloop : forall k s0 s1,
             for_range k (fun s2 => add_trajectory_point (update_lorenz s2)) s0 = Ok s1 ->
             rotation_angle s1 = rotation_angle s0).
  { induction k as [|k IH]; intros s0 s1 H; cbn [for_range] in H.
    - injection H as <-. reflexivity.
    - destruct (add_trajectory_point (update_lorenz s0)) as [s2|e] eqn:E;
        [|discriminate].
      cbn [bind] in H. rewrite (IH s2 s1 H).
      unfold add_trajectory_point in E.
      destruct (Z.of_nat (length (trajectory (update_lorenz s0)))
                <? max_points (update_lorenz s0))%Z.
      + injection E as <-. reflexivity.
      + destruct (pop0 (trajectory (update_lorenz s0))); [|discriminate].
        cbn [bind] in E. injection E as <-. reflexivity. }
  destruct (for_range 50 _ s) as [s1|e] eqn:E; [|discriminate].
  cbn [bind]. intros H. injection H as <-.
  apply Hloop in E. unfold rotate_view, wrap_angle; cbn [rotation_angle set_rotation_angle].
  rewrite E. reflexivity.
Qed.

Lemma for_range_succ_r {S : Type} (n : nat) (body : S -> result S) (s : S) :
  for_range (Datatypes.S n) body s = bind (for_range n body s) body.
Proof.
  revert s. induction n as [|n IH]; intros s.
  - cbn [for_range bind]. destruct (body s); reflexivity.
  - change (for_range (Datatypes.S (Datatypes.S n)) body s)
      with (bind (body s) (for_range (Datatypes.S n) body)).
    cbn [for_range]. destruct (body s) as [s1|e]; [|reflexivity].
    cbn [bind]. apply IH.
Qed.

(** Frames from a positive capacity never raise; the angle is iterated. *)
Lemma frames_ok (n : nat) (s : LorenzSimulator) :
  (0 < max_points s)%Z ->
  exists s', frames n s = Ok s'
    /\ rotation_angle s' = Nat.iter n wrap_angle (rotation_angle s)
    /\ max_points s' = max_points s
    /\ display_width s' = display_width s
    /\ display_height s' = display_height s.
Proof.
  intros Hcap. induction n as [|n (s1 & H1 & Ea & Em & Ew & Eh)].
  - exists s. repeat split.
  - destruct (simulate_frame_ok s1) as (s2 & H2 & Ea2 & Em2 & Ew2 & Eh2);
      [rewrite Em; exact Hcap|].
    exists s2. unfold frames in *. rewrite for_range_succ_r, H1. cbn [bind].
    split; [exact H2|]. rewrite Ea2, Ea.
    split; [reflexivity|]. repeat split; congruence.
Qed.

(** The angle after [n] frames is 0.2 n less a whole number of turns, and
    lies in [0, 2 pi]. *)
Lemma angle_form (n : nat) :
  exists m : nat,
    Nat.iter n wrap_angle 0 = 0.2 * INR n - 2 * PI * INR m
    /\ 0 <= Nat.iter n wrap_angle 0 <= 2 * PI.
Proof.
  pose proof PI_above as Hpi.
  induction n as [|n (m & E & Hr)].
  - exists O. change (Nat.iter 0 wrap_angle 0) with 0. cbn [INR]. split; lra.
  - change (Nat.iter (Datatypes.S n) wrap_angle 0)
      with (wrap_angle (Nat.iter n wrap_angle 0)).
    set (a := Nat.iter n wrap_angle 0) in *. unfold wrap_angle.
    destruct (Rgt_dec (a + 0.2) (2 * PI)) as [Hgt|Hle].
    + exists (Datatypes.S m). split; [rewrite E, !S_INR; ring|lra].
    + exists m. split; [rewrite E, S_INR; ring|lra].
Qed.

Lemma angle_below_turn (n : nat) : Nat.iter n wrap_angle 0 < 2 * PI.
Proof.
  destruct (angle_form n) as (m & E & Hr).
  destruct (Req_dec (Nat.iter n wrap_angle 0) (2 * PI)) as [Heq|Hne]; [|lra].
  exfalso.
  apply (PI_irrational (Z.of_nat n) (10 * Z.of_nat (Datatypes.S m))); [lia|].
  rewrite mult_IZR, <- !INR_IZR_INZ, S_INR.
  rewrite Heq in E. pose proof (pos_INR m).
  field_simplify_eq; lra.
Qed.

Lemma angle_before_wrap (n : nat) :
  (n < 32)%nat -> Nat.iter n wrap_angle 0 = 0.2 * INR n.
Proof.
  pose proof PI_above as Hpi.
  induction n as [|n IH]; intros Hn.
  - change (Nat.iter 0 wrap_angle 0) with 0. cbn [INR]. lra.
  - change (Nat.iter (Datatypes.S n) wrap_angle 0)
      with (wrap_angle (Nat.iter n wrap_angle 0)).
    rewrite IH by lia. unfold wrap_angle.
    assert (Hle : INR n <= INR 30) by (apply le_INR; lia).
    replace (INR 30) with 30 in Hle by (simpl; lra).
    rewrite S_INR.
    destruct (Rgt_dec (0.2 * INR n + 0.2) (2 * PI)); lra.
Qed.

Lemma angle_at_wrap : Nat.iter 32 wrap_angle 0 = 0.2 * 32 - 2 * PI.
Proof.
  pose proof PI_below as Hpi.
  change (Nat.iter 32 wrap_angle 0) with (wrap_angle (Nat.iter 31 wrap_angle 0)).
  rewrite (angle_before_wrap 31) by lia.
  unfold wrap_angle. replace (INR 31) with 31 by (simpl; lra).
  destruct (Rgt_dec (0.2 * 31 + 0.2) (2 * PI)); lra.
Qed.

(** C5.  From [__init__] (angle 0) frames never raise.  Each frame turns
    the angle [a] into [a + 0.2], less 2 pi when that exceeds 2 pi.  After
    every number [n] of frames the angle is 0.2 n less a whole number of
    turns and lies in [0, 2 pi).  The ceiling of 2 pi / 0.2 is 32: up to 31
    frames the angle is 0.2 n, not yet wrapped, and after exactly 32 frames
    it is 6.4 - 2 pi, wrapped once. *)
Theorem rotation_angle_wraps :
  (forall s s', simulate_frame s = Ok s' ->
     rotation_angle s' =
     if Rgt_dec (rotation_angle s + 0.2) (2 * PI)
     then rotation_angle s + 0.2 - 2 * PI else rotation_angle s + 0.2)
  /\ (forall n, exists s,
        frames n init = Ok s
        /\ 0 <= rotation_angle s < 2 * PI
        /\ exists m : nat, rotation_angle s = 0.2 * INR n - 2 * PI * INR m)
  /\ 32 - 1 < 2 * PI / 0.2 <= 32
  /\ (forall n, (n < 32)%nat -> exists s,
        frames n init = Ok s /\ rotation_angle s = 0.2 * INR n)
  /\ (exists s, frames 32 init = Ok s /\ rotation_angle s = 0.2 * 32 - 2 * PI).
Proof.
  assert (Hcap : (0 < max_points init)%Z) by (cbn; lia).
  split; [exact simulate_frame_angle|].
  split.
  { intros n. destruct (frames_ok n init Hcap) as (s & H & Ea & _).
    exists s. split; [exact H|]. rewrite Ea. cbn [rotation_angle init].
    destruct (angle_form n) as (m & E & Hr).
    pose proof (angle_below_turn n).
    split; [lra|]. exists m. exact E. }
  split.
  { pose proof PI_above. pose proof PI_below.
    split.
    - apply Rmult_lt_reg_r with 0.2; [lra|]. unfold Rdiv.
      rewrite Rmult_assoc, Rinv_l by lra. lra.
    - apply Rmult_le_reg_r with 0.2; [lra|]. unfold Rdiv.
      rewrite Rmult_assoc, Rinv_l by lra. lra. }
  split.
  { intros n Hn. destruct (frames_ok n init Hcap) as (s & H & Ea & _).
    exists s. split; [exact H|]. rewrite Ea. cbn [rotation_angle init].
    apply angle_before_wrap. exact Hn. }
  destruct (frames_ok 32 init Hcap) as (s & H & Ea & _).
  exists s. split; [exact H|]. rewrite Ea. cbn [rotation_angle init].
  exact angle_at_wrap.
Qed.

(** A frame from a positive capacity: the simulated state and the
    trajectory layer painted from its projection. *)
Lemma create_watchy_frame_pil_ok (s : LorenzSimulator) (frame_num : Z) :
  (0 < max_points s)%Z ->
  exists s',
    simulate_frame s = Ok s'
    /\ create_watchy_frame_pil s frame_num
       = Ok (s', paint_trajectory (fst (get_screen_coordinates s'))
                                  (snd (get_screen_coordinates s'))).
Proof.
  intros Hcap. destruct (simulate_frame_ok s Hcap) as (s' & H & _).
  exists s'. split; [exact H|].
  unfold create_watchy_frame_pil. rewrite H. cbn [bind].
  destruct (get_screen_coordinates s'). reflexivity.
Qed.

(* ================================================================= *)
(** ** Construction *)


(** With capacity 0 the failure comes late and is not a configuration
    error: the first push raises [IndexError] from [pop(0)]. *)
Lemma no_capacity_raises_late :
  ~ valid_configuration no_capacity
  /\ add_trajectory_point (update_lorenz no_capacity) = Raise IndexError
  /\ simulate_frame no_capacity = Raise IndexError.
Proof.
  split; [unfold valid_configuration; cbn; lia|].
  split; reflexivity.
Qed.


(* ================================================================= *)
(** ** Recorded points are copies *)

Lemma load_write_other (h : Store.store) (r r' : Store.ref) (v : vec) :
  r <> r' -> Store.load (Store.write h r v) r' = Store.load h r'.
Proof.
  unfold Store.load. revert r r'.
  induction h as [|x h IH]; intros r r' Hne; [reflexivity|].
  destruct r as [|r]; destruct r' as [|r']; cbn [Store.write nth];
    try reflexivity; try congruence.
  apply IH. congruence.
Qed.

Lemma load_write_same (h : Store.store) (r : Store.ref) (v : vec) :
  (r < length h)%nat -> Store.load (Store.write h r v) r = v.
Proof.
  unfold Store.load. revert r.
  induction h as [|x h IH]; intros r Hr; [cbn in Hr; lia|].
  destruct r as [|r]; cbn [Store.write nth]; [reflexivity|].
  apply IH. cbn in Hr. lia.
Qed.

Lemma write_length (h : Store.store) (r : Store.ref) (v : vec) :
  length (Store.write h r v) = length h.
Proof.
  revert r. induction h as [|x h IH]; intros r; [reflexivity|].
  destruct r; cbn [Store.write length]; [reflexivity|]. rewrite IH. reflexivity.
Qed.

Lemma load_app_old (h : Store.store) (v : vec) (r : Store.ref) :
  (r < length h)%nat -> Store.load (h ++ [v]) r = Store.load h r.
Proof. intros H. unfold Store.load. apply app_nth1. exact H. Qed.

Lemma load_app_new (h : Store.store) (v : vec) :
  Store.load (h ++ [v]) (length h) = v.
Proof. unfold Store.load. apply nth_middle. Qed.

Lemma store_init_wf : Store.wf Store.init.
Proof. split; [cbn; lia|constructor]. Qed.

(** One call: [self.pos] stays the same array, the store only grows, and
    every other allocated array keeps its contents. *)
Lemma exec_preserves (c : Store.call) (st st' : Store.state) :
  Store.wf st -> Store.exec c st = Ok st' ->
  Store.wf st'
  /\ pos (Store.self st') = pos (Store.self st)
  /\ (length (Store.heap st) <= length (Store.heap st'))%nat
  /\ (forall r, (r < length (Store.heap st))%nat -> r <> pos (Store.self st) ->
        Store.load (Store.heap st') r = Store.load (Store.heap st) r).
Proof.
  intros [Hp Ht] H. destruct c; cbn [Store.exec] in H.
  - injection H as <-.
    unfold Store.update_lorenz, Store.wf; cbn [Store.heap Store.self].
    rewrite write_length.
    repeat split; try assumption; try lia.
    intros r _ Hne. apply load_write_other. congruence.
  - unfold Store.add_trajectory_point in H.
    assert (Hgrow : forall t,
               Forall (fun r => (r < length (Store.heap st))%nat
                                /\ r <> pos (Store.self st)) t ->
               Forall (fun r => (r < length (Store.heap st ++
                        [Store.load (Store.heap st) (pos (Store.self st))]))%nat
                                /\ r <> pos (Store.self st))
                      (t ++ [length (Store.heap st)])).
    { intros t Hf. apply Forall_app. split.
      - eapply Forall_impl; [|exact Hf]. cbn beta. intros r [H1 H2].
        rewrite length_app; cbn [length]. split; [lia|assumption].
      - constructor; [|constructor]. rewrite length_app; cbn [length]. lia. }
    destruct (Z.of_nat (length (trajectory (Store.self st)))
              <? max_points (Store.self st))%Z.
    + cbn [Store.alloc] in H. injection H as <-.
      unfold Store.wf; cbn [Store.heap Store.self pos trajectory set_trajectory].
      split; [split; [rewrite length_app; lia|apply Hgrow; exact Ht]|].
      split; [reflexivity|]. split; [rewrite length_app; lia|].
      intros r Hr _. apply load_app_old. exact Hr.
    + destruct (trajectory (Store.self st)) as [|x t] eqn:E;
        [discriminate|].
      cbn [pop0 bind snd Store.alloc] in H. injection H as <-.
      unfold Store.wf; cbn [Store.heap Store.self pos trajectory set_trajectory].
      split; [split; [rewrite length_app; lia|apply Hgrow; inversion Ht; assumption]|].
      split; [reflexivity|]. split; [rewrite length_app; lia|].
      intros r Hr _. apply load_app_old. exact Hr.
Qed.

Lemma run_preserves (cs : list Store.call) (st st' : Store.state) :
  Store.wf st -> Store.run cs st = Ok st' ->
  Store.wf st'
  /\ pos (Store.self st') = pos (Store.self st)
  /\ (length (Store.heap st) <= length (Store.heap st'))%nat
  /\ (forall r, (r < length (Store.heap st))%nat -> r <> pos (Store.self st) ->
        Store.load (Store.heap st') r = Store.load (Store.heap st) r).
Proof.
  revert st. induction cs as [|c cs IH]; intros st Hwf H; cbn [Store.run] in H.
  - injection H as <-.
    split; [exact Hwf|]. split; [reflexivity|]. split; [lia|reflexivity].
  - destruct (Store.exec c st) as [st1|e] eqn:E; [|discriminate].
    cbn [bind] in H.
    destruct (exec_preserves c st st1 Hwf E) as (Hwf1 & Hp1 & Hl1 & Hk1).
    destruct (IH st1 Hwf1 H) as (Hwf2 & Hp2 & Hl2 & Hk2).
    split; [exact Hwf2|]. split; [congruence|]. split; [lia|].
    intros r Hr Hne. rewrite Hk2; [apply Hk1; assumption|lia|congruence].
Qed.

(** A successful push ends the list with a new array that holds the
    position of that moment. *)
Lemma add_records_copy (st st' : Store.state) :
  Store.add_trajectory_point st = Ok st' ->
  last (trajectory (Store.self st')) O = length (Store.heap st)
  /\ In (length (Store.heap st)) (trajectory (Store.self st'))
  /\ Store.load (Store.heap st') (length (Store.heap st))
     = Store.load (Store.heap st) (pos (Store.self st)).
Proof.
  unfold Store.add_trajectory_point. intros H.
  destruct (Z.of_nat (length (trajectory (Store.self st)))
            <? max_points (Store.self st))%Z.
  - cbn [Store.alloc] in H. injection H as <-.
    cbn [Store.heap Store.self trajectory set_trajectory].
    rewrite last_last, load_app_new.
    repeat split. apply in_or_app. right. left. reflexivity.
  - destruct (trajectory (Store.self st)) as [|x t]; [discriminate|].
    cbn [pop0 bind snd Store.alloc] in H. injection H as <-.
    cbn [Store.heap Store.self trajectory set_trajectory].
    rewrite last_last, load_app_new.
    repeat split. apply in_or_app. right. left. reflexivity.
Qed.

(** C9.  In a run of integration steps and pushes from [__init__], take any
    push.  The array it appends holds the position at the moment of the
    push, and after any further steps and pushes -- each step overwrites
    the position array in place -- that array and every other array in the
    trajectory at that moment still hold the same values. *)
Theorem trajectory_points_are_snapshots
        (cs1 cs2 : list Store.call) (st0 st1 st2 : Store.state) :
  Store.run cs1 Store.init = Ok st0 ->
  Store.add_trajectory_point st0 = Ok st1 ->
  Store.run cs2 st1 = Ok st2 ->
  In (last (trajectory (Store.self st1)) O) (trajectory (Store.self st1))
  /\ Store.load (Store.heap st2) (last (trajectory (Store.self st1)) O)
     = Store.load (Store.heap st0) (pos (Store.self st0))
  /\ (forall r, In r (trajectory (Store.self st1)) ->
        Store.load (Store.heap st2) r = Store.load (Store.heap st1) r).
Proof.
  intros H0 H1 H2.
  destruct (run_preserves cs1 Store.init st0 store_init_wf H0) as (Hwf0 & _).
  destruct (exec_preserves Store.CallAdd st0 st1 Hwf0 H1) as (Hwf1 & _).
  destruct (run_preserves cs2 st1 st2 Hwf1 H2) as (_ & _ & _ & Hkeep).
  assert (Hall : forall r, In r (trajectory (Store.self st1)) ->
            Store.load (Store.heap st2) r = Store.load (Store.heap st1) r).
  { intros r Hr. destruct Hwf1 as [_ Hf]. rewrite Forall_forall in Hf.
    destruct (Hf r Hr) as [Ha Hb]. apply Hkeep; assumption. }
  destruct (add_records_copy st0 st1 H1) as (Hlast & Hin & Hval).
  rewrite Hlast. split; [exact Hin|]. split; [|exact Hall].
  rewrite (Hall _ Hin). exact Hval.
Qed.

Lemma trajectory_points_are_snapshots_witness :
  Store.load (Store.heap demo_later) 1%nat
  = Store.load (Store.heap demo_recorded) 0%nat.
Proof.
  exact (proj1 (proj2 (trajectory_points_are_snapshots
                         [Store.CallUpdate] [Store.CallUpdate; Store.CallAdd]
                         demo_recorded demo_pushed demo_later
                         eq_refl eq_refl eq_refl))).
Defined.

(** The step does overwrite the position array: after the run above the
    array [self.pos] no longer holds what the recorded point holds. *)
Example position_array_is_overwritten :
  Store.load (Store.heap Store.init) 0%nat = (1, 1, 1)
  /\ Store.load (Store.heap demo_recorded) 0%nat <> (1, 1, 1).
Proof.
  split; [reflexivity|].
  unfold demo_recorded, Store.update_lorenz, Store.load, lorenz_derivative,
    vadd, vmul, vdiv, smul; cbn.
  intros H. injection H as H1 H2 H3. lra.
Qed.

(** *** The store model refines the value model *)

Lemma view_update_lorenz (st : Store.state) :
  Store.wf st ->
  Store.view (Store.update_lorenz st) = update_lorenz (Store.view st).
Proof.
  intros [Hp Ht].
  unfold Store.view, Store.update_lorenz, update_lorenz, set_pos,
    lorenz_derivative;
    cbn [Store.heap Store.self sigma rho beta dt pos max_points trajectory
         rotation_angle display_width display_height].
  rewrite load_write_same by assumption.
  f_equal. apply map_ext_in. intros r Hr.
  rewrite Forall_forall in Ht. destruct (Ht r Hr) as [_ Hne].
  apply load_write_other. congruence.
Qed.

Lemma view_add_trajectory_point (st : Store.state) :
  Store.wf st ->
  match Store.add_trajectory_point st with
  | Ok st' => add_trajectory_point (Store.view st) = Ok (Store.view st')
  | Raise e => add_trajectory_point (Store.view st) = Raise e
  end.
Proof.
  intros [Hp Ht].
  assert (Hmap : forall t,
             Forall (fun r => (r < length (Store.heap st))%nat
                              /\ r <> pos (Store.self st)) t ->
             map (Store.load (Store.heap st ++
                    [Store.load (Store.heap st) (pos (Store.self st))]))
                 (t ++ [length (Store.heap st)])
             = map (Store.load (Store.heap st)) t
               ++ [Store.load (Store.heap st) (pos (Store.self st))]).
  { intros t Hf. rewrite map_app. cbn [map]. rewrite load_app_new. f_equal.
    apply map_ext_in. intros r Hr. rewrite Forall_forall in Hf.
    apply load_app_old. apply (Hf r Hr). }
  unfold Store.add_trajectory_point, add_trajectory_point, Store.view;
    cbn [trajectory max_points Store.self Store.heap].
  rewrite length_map.
  destruct (Z.of_nat (length (trajectory (Store.self st)))
            <? max_points (Store.self st))%Z.
  - cbn [Store.alloc Store.heap Store.self]. f_equal.
    unfold set_trajectory;
      cbn [sigma rho beta dt pos max_points trajectory rotation_angle
           display_width display_height].
    rewrite Hmap by assumption. rewrite load_app_old by assumption.
    reflexivity.
  - destruct (trajectory (Store.self st)) as [|x t] eqn:E; [reflexivity|].
    cbn [map pop0 bind snd Store.alloc Store.heap Store.self]. f_equal.
    unfold set_trajectory;
      cbn [sigma rho beta dt pos max_points trajectory rotation_angle
           display_width display_height].
    rewrite Hmap by (inversion Ht; assumption).
    rewrite load_app_old by assumption. reflexivity.
Qed.

Lemma view_init : Store.view Store.init = init.
Proof. reflexivity. Qed.

(* ================================================================= *)
(** ** The concrete inputs on binary64 *)

(** At angle 0, [math.cos] is 1.0 and [math.sin] is 0.0.  The two
    projections of the scaling counterexample come out the same on doubles
    as on reals. *)
Example close_pair_projection_binary64 :
  Binary64.get_screen_coordinates 1 0 Binary64.close_pair
  = ([75; 125]%float, [75; 125]%float).
Proof. vm_compute. reflexivity. Qed.

Example close_pair_doubled_projection_binary64 :
  Binary64.get_screen_coordinates 1 0
    (map (Binary64.smul 2) Binary64.close_pair)
  = ([60; 140]%float, [60; 140]%float).
Proof. vm_compute. reflexivity. Qed.

(** On doubles too the first wrap of the angle is at frame 32. *)
Example first_wrap_binary64 :
  (6 <? Nat.iter 31 Binary64.rotate_view 0)%float = true
  /\ (Nat.iter 32 Binary64.rotate_view 0 <? 0.25)%float = true
  /\ (0 <? Nat.iter 32 Binary64.rotate_view 0)%float = true.
Proof. vm_compute. repeat split. Qed.
